(** * MGaming: the hero video carousel (src/components/Hero.jsx)

    A shallow embedding of the state of the [Hero] component, of its two
    event handlers, of its loading effect and of the three video locators
    it renders, followed by the properties of the carousel sequencer.
    The transition animation of the carousel, the hover effect around its
    mini video (VideoPreview.jsx), the navigation bar (Navbar.jsx) and the
    contact form (Contact.jsx) are embedded after it. *)

From Stdlib Require Import ZArith List String Ascii Bool Lia.
From Stdlib Require Import DecimalString DecimalZ.
From Stdlib Require Import Permutation QArith Lqa.
Import ListNotations.

Local Open Scope string_scope.
Local Open Scope Z_scope.

(** ** The fragment of JavaScript the component uses *)

Module Js.

(** The result of calling a function: it returns a value or throws. *)
Inductive completion (A : Type) : Type :=
| Normal (a : A)
| Throw (name : string).
Arguments Normal {A} a.
Arguments Throw {A} name.

(** The values that meet in the locator expression: an integral Number
    (the indices of the carousel are small integers, which a double
    holds exactly) and a String. *)
Inductive value : Type :=
| Num (n : Z)
| Str (s : string).

(** [Number::toString] on an integral Number: decimal digits, a leading
    minus sign below zero, "0" for zero.  (JavaScript prints positionally
    up to 10^21, far beyond any index of the carousel.) *)
Definition NumberToString (n : Z) : string :=
  NilZero.string_of_int (Z.to_int n).

Definition ToString (v : value) : string :=
  match v with
  | Num n => NumberToString n
  | Str s => s
  end.

(** A template literal is a sequence of literal chunks and substitutions;
    its value is the concatenation of the chunks with [ToString] of each
    substituted value. *)
Inductive span : Type :=
| Quasi (s : string)
| Subst (v : value).

Definition spanText (p : span) : string :=
  match p with
  | Quasi s => s
  | Subst v => ToString v
  end.

Definition templateLiteral (parts : list span) : string :=
  fold_right (fun p acc => spanText p ++ acc) "" parts.

(** The binary [+]: numeric addition on two Numbers, string
    concatenation as soon as one operand is a String. *)
Definition add (a b : value) : value :=
  match a, b with
  | Num x, Num y => Num (x + y)
  | _, _ => Str (ToString a ++ ToString b)
  end.

(** [a % b] truncates towards zero and takes the sign of the dividend.
    ([b = 0] gives NaN in JavaScript; the carousel never divides by zero
    and the properties below assume [1 <= totalVideos].) *)
Definition rem (a b : Z) : Z := Z.rem a b.

(** [a === b] on Numbers. *)
Definition strictEq (a b : Z) : bool := Z.eqb a b.

End Js.

(** ** The component *)

Module Hero.

(** [useState] cells of the component.  The two Numbers only ever hold
    integers (they start at 1 and 0 and move by [% totalVideos + 1] and
    [+ 1]), which a double represents exactly up to 2^53; they are
    integers here. *)
Record HeroState : Type := mkHeroState {
  currentIndex : Z;
  hasClicked : bool;
  loading : bool;
  loadedVideos : Z
}.

(** State setters; the two counters are updated through a function of
    the previous value, as in the source. *)
Definition setCurrentIndex (f : Z -> Z) (s : HeroState) : HeroState :=
  mkHeroState (f (currentIndex s)) (hasClicked s) (loading s) (loadedVideos s).

Definition setHasClicked (b : bool) (s : HeroState) : HeroState :=
  mkHeroState (currentIndex s) b (loading s) (loadedVideos s).

Definition setLoading (b : bool) (s : HeroState) : HeroState :=
  mkHeroState (currentIndex s) (hasClicked s) b (loadedVideos s).

Definition setLoadedVideos (f : Z -> Z) (s : HeroState) : HeroState :=
  mkHeroState (currentIndex s) (hasClicked s) (loading s) (f (loadedVideos s)).

(** The values passed to the four [useState] calls. *)
Definition initialState : HeroState :=
  {| currentIndex := 1; hasClicked := false; loading := true; loadedVideos := 0 |}.

(** [getVideoSrc]: the template literal `videos/hero-${index}.mp4`. *)
Definition getVideoSrc (index : Z) : string :=
  Js.templateLiteral
    [Js.Quasi "videos/hero-"; Js.Subst (Js.Num index); Js.Quasi ".mp4"].

(** A call of [getVideoSrc]: the body is a single template literal over a
    Number, and the function has no [throw] and no check of its argument. *)
Definition getVideoSrc_call (index : Z) : Js.completion string :=
  Js.Normal (getVideoSrc index).

(** The events the component reacts to: a click on the mini video and
    the [onLoadedData] signal of any of the three video elements. *)
Inductive event : Type :=
| MiniVdClick
| VideoLoaded.

(** What the rendered tree shows: whether the loading screen is there and
    the [src] of the three video elements. *)
Record view : Type := mkView {
  loadingScreen : bool;
  currentVideoSrc : string;   (* id="current-video": the mini preview *)
  nextVideoSrc : string;      (* id="next-video": the transition overlay *)
  backgroundSrc : string      (* the full-size background video *)
}.

(** How many events of a list are clicks, how many are load signals. *)
Definition isClick (e : event) : bool :=
  match e with MiniVdClick => true | VideoLoaded => false end.

Definition isLoad (e : event) : bool :=
  match e with MiniVdClick => false | VideoLoaded => true end.

Definition clicks (evs : list event) : Z :=
  Z.of_nat (List.length (filter isClick evs)).

Definition loads (evs : list event) : Z :=
  Z.of_nat (List.length (filter isLoad evs)).

Section Carousel.

(** The source fixes [totalVideos] to 4; the carousel is stated for any
    count of clips and instantiated at 4 in [Shipped]. *)
Variable totalVideos : Z.

Definition handleVideoLoad (s : HeroState) : HeroState :=
  setLoadedVideos (fun prev => prev + 1) s.

Definition handleMiniVdClick (s : HeroState) : HeroState :=
  setCurrentIndex (fun prevIndex => Js.rem prevIndex totalVideos + 1)
    (setHasClicked true s).

(** The index the preview element asks [getVideoSrc] for:
    [(currentIndex % totalVideos) + 1]. *)
Definition previewIndex (index : Z) : Z :=
  Js.rem index totalVideos + 1.

(** The index the background element asks [getVideoSrc] for:
    [currentIndex === totalVideos - 1 ? 1 : currentIndex]. *)
Definition backgroundIndex (index : Z) : Z :=
  if Js.strictEq index (totalVideos - 1) then 1 else index.

(** The indices of the clips: [1 .. totalVideos]. *)
Definition validIndex (i : Z) : Prop := 1 <= i <= totalVideos.

(** The loading screen is up exactly while fewer than [totalVideos - 1]
    load signals have been counted (an invariant of the mounted
    component, see [run_loadingTracksCount]). *)
Definition loadingTracksCount (s : HeroState) : Prop :=
  loading s = (loadedVideos s <? totalVideos - 1).

(** Body of the loading effect. *)
Definition loadingEffect (s : HeroState) : HeroState :=
  if Js.strictEq (loadedVideos s) (totalVideos - 1)
  then setLoading false s
  else s.

(** After a render is committed the effect runs again only when its
    dependency list [[loadedVideos]] changed. *)
Definition commit (prev next : HeroState) : HeroState :=
  if Js.strictEq (loadedVideos prev) (loadedVideos next)
  then next
  else loadingEffect next.

(** Mounting renders [initialState] and runs every effect once. *)
Definition mount : HeroState := loadingEffect initialState.

Definition handler (e : event) : HeroState -> HeroState :=
  match e with
  | MiniVdClick => handleMiniVdClick
  | VideoLoaded => handleVideoLoad
  end.

(** One event: the handler updates the state, the component renders
    again and the effects whose dependencies changed run.  Events are
    handled one at a time: each one is rendered and committed before the
    next handler runs. *)
Definition dispatch (e : event) (s : HeroState) : HeroState :=
  commit s (handler e s).

Fixpoint run (evs : list event) (s : HeroState) : HeroState :=
  match evs with
  | [] => s
  | e :: evs' => run evs' (dispatch e s)
  end.

(** The successive states of a run, the starting state first. *)
Fixpoint trace (evs : list event) (s : HeroState) : list HeroState :=
  match evs with
  | [] => [s]
  | e :: evs' => s :: trace evs' (dispatch e s)
  end.

(** The states the mounted component can be in. *)
Inductive reachable : HeroState -> Prop :=
| reach_mount : reachable mount
| reach_dispatch e s : reachable s -> reachable (dispatch e s).

Definition render (s : HeroState) : view :=
  {| loadingScreen := loading s;
     currentVideoSrc := getVideoSrc (Js.rem (currentIndex s) totalVideos + 1);
     nextVideoSrc := getVideoSrc (currentIndex s);
     backgroundSrc :=
       getVideoSrc
         (if Js.strictEq (currentIndex s) (totalVideos - 1)
          then 1 else currentIndex s) |}.

End Carousel.

(** The constant of the source. *)
Module Shipped.
Definition totalVideos : Z := 4.
End Shipped.

End Hero.

Import Hero.

(** ** The transition animation of the carousel (Hero.jsx, useGSAP) *)

Module HeroTransition.

(** The three calls the transition effect makes on the animation
    library, in the order of the source. *)
Inductive gsapCall : Type :=
| SetNextVideoVisible      (* gsap.set("#next-video", { visibility: "visible" }) *)
| ToNextVideoFullSize      (* gsap.to("#next-video", { scale: 1, width: "100%", ... }),
                              whose onStart plays the video *)
| FromCurrentVideoScale0.  (* gsap.from("#current-video", { scale: 0, ... }) *)

(** Body of the effect: nothing unless the mini video has been clicked. *)
Definition transitionEffect (s : HeroState) : list gsapCall :=
  if hasClicked s
  then [SetNextVideoVisible; ToNextVideoFullSize; FromCurrentVideoScale0]
  else [].

(** The effect runs again after a render only when its dependency list
    [[currentIndex]] changed. *)
Definition transitionOnCommit (prev next : HeroState) : list gsapCall :=
  if Js.strictEq (currentIndex prev) (currentIndex next)
  then []
  else transitionEffect next.

(** On mount the effect runs once, on the initial state. *)
Definition transitionOnMount : list gsapCall := transitionEffect initialState.

Section Transition.

Variable totalVideos : Z.

(** The calls one event leads to: those of the render that follows the
    handler, then those of the render that follows the loading effect. *)
Definition transitionOnEvent (e : event) (s : HeroState) : list gsapCall :=
  let next := handler totalVideos e s in
  (transitionOnCommit s next
   ++ transitionOnCommit next (commit totalVideos s next))%list.

(** The calls of a run, event by event. *)
Fixpoint transitionLog (evs : list event) (s : HeroState) : list (list gsapCall) :=
  match evs with
  | [] => []
  | e :: evs' =>
      transitionOnEvent e s :: transitionLog evs' (dispatch totalVideos e s)
  end.

End Transition.

End HeroTransition.

(** ** The navigation bar (Navbar.jsx) *)

Module NavBar.

(** Scroll offsets are finite doubles, that is, rationals, and the
    component only compares them: they are rationals here, compared
    exactly. *)
Definition strictEq (a b : Q) : bool := Qeq_bool a b.    (* a === b *)
Definition gt (a b : Q) : bool := negb (Qle_bool a b).   (* a > b *)
Definition lt (a b : Q) : bool := negb (Qle_bool b a).   (* a < b *)

(** The four [useState] cells and the offset the [useWindowScroll] hook
    returns. *)
Record NavState : Type := mkNavState {
  isAudioPlaying : bool;
  isIndicatorActive : bool;
  isNavVisible : bool;
  lastScrollY : Q;
  currentScrollY : Q
}.

(** What the effects act on outside React: the audio element, the class
    list of the container and the target of the last [gsap.to] on it. *)
Record NavDom : Type := mkNavDom {
  audioPlaying : bool;     (* the audio element plays (is not paused) *)
  floatingNav : bool;      (* the class list holds "floating-nav" *)
  navY : Z;                (* y offset the container is animated to *)
  navOpacity : Z           (* opacity the container is animated to *)
}.

Definition setIsAudioPlaying (f : bool -> bool) (s : NavState) : NavState :=
  mkNavState (f (isAudioPlaying s)) (isIndicatorActive s) (isNavVisible s)
    (lastScrollY s) (currentScrollY s).

Definition setIsIndicatorActive (f : bool -> bool) (s : NavState) : NavState :=
  mkNavState (isAudioPlaying s) (f (isIndicatorActive s)) (isNavVisible s)
    (lastScrollY s) (currentScrollY s).

Definition setIsNavVisible (b : bool) (s : NavState) : NavState :=
  mkNavState (isAudioPlaying s) (isIndicatorActive s) b
    (lastScrollY s) (currentScrollY s).

Definition setLastScrollY (y : Q) (s : NavState) : NavState :=
  mkNavState (isAudioPlaying s) (isIndicatorActive s) (isNavVisible s)
    y (currentScrollY s).

(** The hook stores the offset of the window at each scroll event. *)
Definition setCurrentScrollY (y : Q) (s : NavState) : NavState :=
  mkNavState (isAudioPlaying s) (isIndicatorActive s) (isNavVisible s)
    (lastScrollY s) y.

Definition audioPlay (d : NavDom) : NavDom :=
  mkNavDom true (floatingNav d) (navY d) (navOpacity d).

Definition audioPause (d : NavDom) : NavDom :=
  mkNavDom false (floatingNav d) (navY d) (navOpacity d).

Definition classListAdd (d : NavDom) : NavDom :=
  mkNavDom (audioPlaying d) true (navY d) (navOpacity d).

Definition classListRemove (d : NavDom) : NavDom :=
  mkNavDom (audioPlaying d) false (navY d) (navOpacity d).

Definition gsapTo (y opacity : Z) (d : NavDom) : NavDom :=
  mkNavDom (audioPlaying d) (floatingNav d) y opacity.

(** The state of the first render, with the window at offset [y0]. *)
Definition initialState (y0 : Q) : NavState :=
  {| isAudioPlaying := false; isIndicatorActive := false;
     isNavVisible := true; lastScrollY := 0%Q; currentScrollY := y0 |}.

(** The elements as rendered, before any effect: the audio element does
    not play, the class is absent, the container is where the style
    sheet puts it. *)
Definition initialDom : NavDom :=
  {| audioPlaying := false; floatingNav := false; navY := 0; navOpacity := 1 |}.

Definition toggleAudioIndicator (s : NavState) : NavState :=
  setIsIndicatorActive negb (setIsAudioPlaying negb s).

(** First effect, dependencies [[isAudioPlaying]]. *)
Definition audioEffect (s : NavState) (d : NavDom) : NavDom :=
  if isAudioPlaying s then audioPlay d else audioPause d.

(** Second effect, dependencies [[currentScrollY, lastScrollY]].  The
    setters act on the state of the next render; the tests read the
    values of this render. *)
Definition scrollEffect (s : NavState) (next : NavState) (d : NavDom)
  : NavState * NavDom :=
  let '(next1, d1) :=
    if strictEq (currentScrollY s) 0 then
      (setIsNavVisible true next, classListRemove d)
    else if gt (currentScrollY s) (lastScrollY s) then
      (setIsNavVisible false next, classListAdd d)
    else if lt (currentScrollY s) (lastScrollY s) then
      (setIsNavVisible true next, classListAdd d)
    else (next, d) in
  (setLastScrollY (currentScrollY s) next1, d1).

(** Third effect, dependencies [[isNavVisible]]. *)
Definition visibilityEffect (s : NavState) (d : NavDom) : NavDom :=
  gsapTo (if isNavVisible s then 0 else -100)
         (if isNavVisible s then 1 else 0) d.

(** Whether a dependency list changed since the previous render; on the
    first render every effect runs. *)
Definition audioDepsChanged (prev : option NavState) (s : NavState) : bool :=
  match prev with
  | None => true
  | Some p => negb (Bool.eqb (isAudioPlaying p) (isAudioPlaying s))
  end.

Definition scrollDepsChanged (prev : option NavState) (s : NavState) : bool :=
  match prev with
  | None => true
  | Some p => negb (strictEq (currentScrollY p) (currentScrollY s)
                    && strictEq (lastScrollY p) (lastScrollY s))
  end.

Definition visibilityDepsChanged (prev : option NavState) (s : NavState) : bool :=
  match prev with
  | None => true
  | Some p => negb (Bool.eqb (isNavVisible p) (isNavVisible s))
  end.

(** The effects of one render, in the order of the source; the result is
    the state of the next render and the elements after the effects. *)
Definition runEffects (prev : option NavState) (s : NavState) (d : NavDom)
  : NavState * NavDom :=
  let d1 := if audioDepsChanged prev s then audioEffect s d else d in
  let '(next, d2) :=
    if scrollDepsChanged prev s then scrollEffect s s d1 else (s, d1) in
  let d3 := if visibilityDepsChanged prev s then visibilityEffect s d2 else d2 in
  (next, d3).

(** A setter given the value a cell already holds does not render again. *)
Definition sameState (a b : NavState) : bool :=
  Bool.eqb (isAudioPlaying a) (isAudioPlaying b)
  && Bool.eqb (isIndicatorActive a) (isIndicatorActive b)
  && Bool.eqb (isNavVisible a) (isNavVisible b)
  && strictEq (lastScrollY a) (lastScrollY b)
  && strictEq (currentScrollY a) (currentScrollY b).

(** Render, run the effects, render again if they changed the state, for
    at most [fuel] renders; [None] when the state has not come to rest
    by then. *)
Fixpoint settle (fuel : nat) (prev : option NavState) (s : NavState) (d : NavDom)
  : option (NavState * NavDom) :=
  match fuel with
  | O => None
  | S fuel' =>
      let '(next, d') := runEffects prev s d in
      if sameState next s then Some (s, d')
      else settle fuel' (Some s) next d'
  end.

Inductive event : Type :=
| Scroll (y : Q)      (* the window scrolled to offset y *)
| AudioClick.         (* a click on the audio button *)

Definition handler (e : event) (s : NavState) : NavState :=
  match e with
  | Scroll y => setCurrentScrollY y s
  | AudioClick => toggleAudioIndicator s
  end.

Definition mount (fuel : nat) (y0 : Q) : option (NavState * NavDom) :=
  settle fuel None (initialState y0) initialDom.

Definition dispatch (fuel : nat) (e : event) (c : NavState * NavDom)
  : option (NavState * NavDom) :=
  settle fuel (Some (fst c)) (handler e (fst c)) (snd c).

Fixpoint run (fuel : nat) (evs : list event) (c : NavState * NavDom)
  : option (NavState * NavDom) :=
  match evs with
  | [] => Some c
  | e :: evs' =>
      match dispatch fuel e c with
      | Some c' => run fuel evs' c'
      | None => None
      end
  end.

(** The component from its first render on. *)
Definition session (fuel : nat) (y0 : Q) (evs : list event)
  : option (NavState * NavDom) :=
  match mount fuel y0 with
  | Some c => run fuel evs c
  | None => None
  end.

(** What holds of the component whenever it has come to rest. *)
Record atRest (c : NavState * NavDom) : Prop := mkAtRest {
  rest_last : (lastScrollY (fst c) == currentScrollY (fst c))%Q;
  rest_indicator : isIndicatorActive (fst c) = isAudioPlaying (fst c);
  rest_audio : audioPlaying (snd c) = isAudioPlaying (fst c);
  rest_floating : floatingNav (snd c) = negb (strictEq (currentScrollY (fst c)) 0);
  rest_navY : navY (snd c) = if isNavVisible (fst c) then 0 else -100;
  rest_navOpacity : navOpacity (snd c) = if isNavVisible (fst c) then 1 else 0;
  rest_top : strictEq (currentScrollY (fst c)) 0 = true -> isNavVisible (fst c) = true
}.

(** How many events of a list are clicks on the audio button. *)
Definition audioClicks (evs : list event) : nat :=
  List.length (filter (fun e => match e with AudioClick => true | _ => false end) evs).

End NavBar.

(** ** The hover effect around the mini video (VideoPreview.jsx) *)

Module VideoPreview.

(** The arithmetic on Numbers the mouse handler uses.  It is kept
    abstract: what is proved below holds for whatever these operations
    compute, the doubles of the browser included. *)
Record numberOps : Type := mkNumberOps {
  num : Type;
  zero : num;                    (* the literal 0 *)
  two : num;                     (* the literal 2 *)
  add : num -> num -> num;       (* a + b *)
  sub : num -> num -> num;       (* a - b *)
  div : num -> num -> num;       (* a / b *)
  neg : num -> num               (* -a *)
}.

(** Exact rational arithmetic, to evaluate the model. *)
Definition exactOps : numberOps :=
  {| num := Q; zero := 0%Q; two := 2%Q;
     add := Qplus; sub := Qminus; div := Qdiv; neg := Qopp |}.

Section Preview.

Variable ops : numberOps.

(** The fields of [getBoundingClientRect()] the handler reads. *)
Record rect : Type := mkRect {
  left : num ops;
  top : num ops;
  width : num ops;
  height : num ops
}.

(** The fields of the mouse event the handler reads. *)
Record mouseEvent : Type := mkMouseEvent {
  clientX : num ops;
  clientY : num ops;
  currentTarget : rect
}.

(** Where the last [gsap.to] sends the section and the content. *)
Record sectionTween : Type := mkSectionTween {
  sectionX : num ops;
  sectionY : num ops;
  rotationY : num ops;
  rotationX : num ops
}.

Record contentTween : Type := mkContentTween {
  contentX : num ops;
  contentY : num ops
}.

Record previewDom : Type := mkPreviewDom {
  sectionTarget : sectionTween;
  contentTarget : contentTween
}.

(** The pose both reset tweens ask for. *)
Definition restPose : previewDom :=
  {| sectionTarget := mkSectionTween (zero ops) (zero ops) (zero ops) (zero ops);
     contentTarget := mkContentTween (zero ops) (zero ops) |}.

Definition handleMouseMove (isHovering : bool) (e : mouseEvent) (d : previewDom)
  : previewDom :=
  let r := currentTarget e in
  let xOffset := sub ops (clientX e) (add ops (left r) (div ops (width r) (two ops))) in
  let yOffset := sub ops (clientY e) (add ops (top r) (div ops (height r) (two ops))) in
  if isHovering then
    {| sectionTarget :=
         {| sectionX := xOffset;
            sectionY := yOffset;
            rotationY := div ops xOffset (two ops);
            rotationX := div ops (neg ops yOffset) (two ops) |};
       contentTarget :=
         {| contentX := neg ops xOffset; contentY := neg ops yOffset |} |}
  else d.

(** The effect, dependencies [[isHovering]]. *)
Definition hoverEffect (isHovering : bool) (d : previewDom) : previewDom :=
  if negb isHovering then restPose else d.

Inductive event : Type :=
| MouseMove (e : mouseEvent)
| MouseEnter
| MouseLeave.

(** A setter given the value the cell holds does not render again, so the
    effect runs only when [isHovering] really changed. *)
Definition setIsHovering (b : bool) (c : bool * previewDom) : bool * previewDom :=
  if Bool.eqb (fst c) b then c else (b, hoverEffect b (snd c)).

Definition dispatch (e : event) (c : bool * previewDom) : bool * previewDom :=
  match e with
  | MouseMove m => (fst c, handleMouseMove (fst c) m (snd c))
  | MouseEnter => setIsHovering true c
  | MouseLeave => setIsHovering false c
  end.

(** Before the first effect the elements carry no transform. *)
Definition mount : bool * previewDom := (false, hoverEffect false restPose).

Fixpoint run (evs : list event) (c : bool * previewDom) : bool * previewDom :=
  match evs with
  | [] => c
  | e :: evs' => run evs' (dispatch e c)
  end.

(** The targets a move over a hovered section asks for are tied together:
    the content goes the opposite way, the rotations are half the
    offsets. *)
Definition tilted (d : previewDom) : Prop :=
  contentX (contentTarget d) = neg ops (sectionX (sectionTarget d))
  /\ contentY (contentTarget d) = neg ops (sectionY (sectionTarget d))
  /\ rotationY (sectionTarget d) = div ops (sectionX (sectionTarget d)) (two ops)
  /\ rotationX (sectionTarget d)
     = div ops (neg ops (sectionY (sectionTarget d))) (two ops).

End Preview.

End VideoPreview.

(** ** The contact form (Contact.jsx) *)

Module Contact.

(** [formData] is a plain object with string values: its own properties,
    in insertion order. *)
Definition jsObject : Type := list (string * string).

Fixpoint objGet (k : string) (o : jsObject) : option string :=
  match o with
  | [] => None
  | (k', v) :: o' => if String.eqb k' k then Some v else objGet k o'
  end.

(** Writing a property: an existing key keeps its place and takes the
    new value, a new key goes to the end (the keys of the form are names,
    not array indices, which JavaScript would list first). *)
Fixpoint objSet (k v : string) (o : jsObject) : jsObject :=
  match o with
  | [] => [(k, v)]
  | (k', v') :: o' =>
      if String.eqb k' k then (k', v) :: o' else (k', v') :: objSet k v o'
  end.

Definition objKeys (o : jsObject) : list string := map fst o.

Inductive status : Type :=
| StatusNull
| StatusSuccess
| StatusError.

(** The three [useState] cells, and the number of submissions whose
    timer has not fired yet. *)
Record ContactState : Type := mkContactState {
  formData : jsObject;
  isSubmitting : bool;
  submitStatus : status;
  pending : nat
}.

Definition emptyForm : jsObject :=
  [("name", ""); ("email", ""); ("subject", ""); ("message", "")].

Definition initialState : ContactState :=
  {| formData := emptyForm; isSubmitting := false;
     submitStatus := StatusNull; pending := O |}.

(** [handleInputChange]: a copy of the previous object with the
    property named by the input set to its value. *)
Definition handleInputChange (name value : string) (s : ContactState)
  : ContactState :=
  mkContactState (objSet name value (formData s)) (isSubmitting s)
    (submitStatus s) (pending s).

(** How an awaited promise ends. *)
Inductive outcome : Type :=
| Fulfilled
| Rejected.

(** The awaited promise only ever calls [resolve], from a timer. *)
Definition timerPromise : outcome := Fulfilled.

(** [handleSubmit] up to the [await]. *)
Definition handleSubmit_start (s : ContactState) : ContactState :=
  mkContactState (formData s) true StatusNull (S (pending s)).

(** [handleSubmit] from the [await] on: the rest of [try], or [catch],
    then [finally]. *)
Definition handleSubmit_resume (o : outcome) (s : ContactState) : ContactState :=
  let s1 :=
    match o with
    | Fulfilled =>
        mkContactState emptyForm (isSubmitting s) StatusSuccess (pending s)
    | Rejected =>
        mkContactState (formData s) (isSubmitting s) StatusError (pending s)
    end in
  mkContactState (formData s1) false (submitStatus s1) (Nat.pred (pending s1)).

Inductive event : Type :=
| InputChange (name value : string)
| Submit
| TimerFired.

(** A timer fires only for a submission that is waiting. *)
Definition dispatch (e : event) (s : ContactState) : ContactState :=
  match e with
  | InputChange name value => handleInputChange name value s
  | Submit => handleSubmit_start s
  | TimerFired =>
      match pending s with
      | O => s
      | S _ => handleSubmit_resume timerPromise s
      end
  end.

Fixpoint run (evs : list event) (s : ContactState) : ContactState :=
  match evs with
  | [] => s
  | e :: evs' => run evs' (dispatch e s)
  end.

(** What the form shows of the submission. *)
Record view : Type := mkView {
  buttonTitle : string;
  successBanner : bool;
  errorBanner : bool
}.

Definition render (s : ContactState) : view :=
  {| buttonTitle := if isSubmitting s then "Sending..." else "Send Message";
     successBanner := match submitStatus s with StatusSuccess => true | _ => false end;
     errorBanner := match submitStatus s with StatusError => true | _ => false end |}.

Definition isInputChange (e : event) : bool :=
  match e with InputChange _ _ => true | _ => false end.

End Contact.

(** ** Sanity checks on the shipped carousel *)

Example getVideoSrc_1 : getVideoSrc 1 = "videos/hero-1.mp4".
Proof. reflexivity. Qed.

Example getVideoSrc_neg : getVideoSrc (-3) = "videos/hero--3.mp4".
Proof. reflexivity. Qed.

Example getVideoSrc_12 : getVideoSrc 12 = "videos/hero-12.mp4".
Proof. reflexivity. Qed.

Example shipped_trajectory :
  map currentIndex
    (trace Shipped.totalVideos (repeat MiniVdClick 4) (mount Shipped.totalVideos))
  = [1; 2; 3; 4; 1].
Proof. reflexivity. Qed.

Example shipped_first_view :
  render Shipped.totalVideos (mount Shipped.totalVideos)
  = mkView true "videos/hero-2.mp4" "videos/hero-1.mp4" "videos/hero-1.mp4".
Proof. reflexivity. Qed.

(** ** What one event does to each cell of the state *)

Section StepFacts.

Variable totalVideos : Z.

Lemma click_currentIndex s :
  currentIndex (dispatch totalVideos MiniVdClick s)
  = previewIndex totalVideos (currentIndex s).
Proof.
  unfold dispatch, commit; cbn.
  unfold Js.strictEq; rewrite Z.eqb_refl; reflexivity.
Qed.

Lemma click_hasClicked s :
  hasClicked (dispatch totalVideos MiniVdClick s) = true.
Proof.
  unfold dispatch, commit; cbn.
  unfold Js.strictEq; rewrite Z.eqb_refl; reflexivity.
Qed.

Lemma click_loading s :
  loading (dispatch totalVideos MiniVdClick s) = loading s.
Proof.
  unfold dispatch, commit; cbn.
  unfold Js.strictEq; rewrite Z.eqb_refl; reflexivity.
Qed.

Lemma click_loadedVideos s :
  loadedVideos (dispatch totalVideos MiniVdClick s) = loadedVideos s.
Proof.
  unfold dispatch, commit; cbn.
  unfold Js.strictEq; rewrite Z.eqb_refl; reflexivity.
Qed.

(** A load signal always changes [loadedVideos], so the effect runs. *)
Lemma load_dispatch s :
  dispatch totalVideos VideoLoaded s
  = loadingEffect totalVideos (handleVideoLoad s).
Proof.
  unfold dispatch, commit, Js.strictEq; cbn.
  destruct (Z.eqb_spec (loadedVideos s) (loadedVideos s + 1)) as [E | _];
    [lia | reflexivity].
Qed.

Lemma loadingEffect_currentIndex s :
  currentIndex (loadingEffect totalVideos s) = currentIndex s.
Proof. unfold loadingEffect; destruct Js.strictEq; reflexivity. Qed.

Lemma loadingEffect_hasClicked s :
  hasClicked (loadingEffect totalVideos s) = hasClicked s.
Proof. unfold loadingEffect; destruct Js.strictEq; reflexivity. Qed.

Lemma loadingEffect_loadedVideos s :
  loadedVideos (loadingEffect totalVideos s) = loadedVideos s.
Proof. unfold loadingEffect; destruct Js.strictEq; reflexivity. Qed.

Lemma loadingEffect_loading s :
  loading (loadingEffect totalVideos s)
  = if loadedVideos s =? totalVideos - 1 then false else loading s.
Proof. unfold loadingEffect, Js.strictEq; destruct (_ =? _); reflexivity. Qed.

Lemma load_currentIndex s :
  currentIndex (dispatch totalVideos VideoLoaded s) = currentIndex s.
Proof. rewrite load_dispatch, loadingEffect_currentIndex; reflexivity. Qed.

Lemma load_hasClicked s :
  hasClicked (dispatch totalVideos VideoLoaded s) = hasClicked s.
Proof. rewrite load_dispatch, loadingEffect_hasClicked; reflexivity. Qed.

Lemma load_loadedVideos s :
  loadedVideos (dispatch totalVideos VideoLoaded s) = loadedVideos s + 1.
Proof. rewrite load_dispatch, loadingEffect_loadedVideos; reflexivity. Qed.

Lemma load_loading s :
  loading (dispatch totalVideos VideoLoaded s)
  = if loadedVideos s + 1 =? totalVideos - 1 then false else loading s.
Proof. rewrite load_dispatch, loadingEffect_loading; reflexivity. Qed.

Lemma run_app evs1 evs2 s :
  run totalVideos (evs1 ++ evs2)%list s
  = run totalVideos evs2 (run totalVideos evs1 s).
Proof.
  revert s; induction evs1 as [| e evs1 IH]; intro s; cbn; [reflexivity | apply IH].
Qed.

Lemma run_snoc evs e s :
  run totalVideos (evs ++ [e])%list s
  = dispatch totalVideos e (run totalVideos evs s).
Proof. rewrite run_app; reflexivity. Qed.

(** The reachable states are the runs from the mounted state. *)
Lemma reachable_run evs :
  reachable totalVideos (run totalVideos evs (mount totalVideos)).
Proof.
  induction evs as [| e evs IH] using rev_ind.
  - constructor.
  - rewrite run_snoc; constructor; exact IH.
Qed.

Lemma reachable_is_run s :
  reachable totalVideos s ->
  exists evs, s = run totalVideos evs (mount totalVideos).
Proof.
  induction 1 as [| e s _ [evs ->]].
  - exists []; reflexivity.
  - exists (evs ++ [e])%list; rewrite run_snoc; reflexivity.
Qed.

End StepFacts.

(** ** The cyclic successor *)

Section Cycle.

Variable totalVideos : Z.
Hypothesis totalVideos_pos : 1 <= totalVideos.

(** On the indices of the carousel [%] is the mathematical remainder. *)
Lemma previewIndex_mod i :
  validIndex totalVideos i -> previewIndex totalVideos i = i mod totalVideos + 1.
Proof.
  intros [Hlo Hhi]; unfold previewIndex, Js.rem.
  rewrite Z.rem_mod_nonneg by lia; reflexivity.
Qed.

Lemma previewIndex_valid i :
  validIndex totalVideos i -> validIndex totalVideos (previewIndex totalVideos i).
Proof.
  intros Hi; rewrite previewIndex_mod by exact Hi.
  pose proof (Z.mod_pos_bound i totalVideos ltac:(lia)).
  unfold validIndex; lia.
Qed.

(** Below the last clip the successor is the next index, at the last clip
    it is 1. *)
Lemma previewIndex_cases i :
  validIndex totalVideos i ->
  previewIndex totalVideos i = if i =? totalVideos then 1 else i + 1.
Proof.
  intros Hi; rewrite previewIndex_mod by exact Hi.
  destruct Hi as [Hlo Hhi].
  destruct (Z.eqb_spec i totalVideos) as [-> | Hne].
  - rewrite Z.mod_same by lia; reflexivity.
  - rewrite Z.mod_small by lia; reflexivity.
Qed.

Lemma dispatch_valid e s :
  validIndex totalVideos (currentIndex s) ->
  validIndex totalVideos (currentIndex (dispatch totalVideos e s)).
Proof.
  intros Hs; destruct e.
  - rewrite click_currentIndex; apply previewIndex_valid; exact Hs.
  - rewrite load_currentIndex; exact Hs.
Qed.

Lemma run_valid evs : forall s,
  validIndex totalVideos (currentIndex s) ->
  validIndex totalVideos (currentIndex (run totalVideos evs s)).
Proof.
  induction evs as [| e evs IH]; intros s Hs; cbn.
  - exact Hs.
  - apply IH, dispatch_valid, Hs.
Qed.

(** Position after a run: only the number of clicks matters. *)
Lemma run_currentIndex evs : forall s,
  validIndex totalVideos (currentIndex s) ->
  currentIndex (run totalVideos evs s)
  = (currentIndex s - 1 + clicks evs) mod totalVideos + 1.
Proof.
  induction evs as [| e evs IH]; intros s Hs.
  - cbn. unfold clicks; cbn. rewrite Z.add_0_r.
    destruct Hs; rewrite Z.mod_small by lia; lia.
  - cbn [run]. rewrite IH by (apply dispatch_valid; exact Hs).
    destruct e.
    + rewrite click_currentIndex, previewIndex_mod by exact Hs.
      replace (clicks (MiniVdClick :: evs)) with (clicks evs + 1)
        by (unfold clicks; cbn [filter isClick List.length]; lia).
      f_equal.
      replace (currentIndex s mod totalVideos + 1 - 1 + clicks evs)
        with (currentIndex s mod totalVideos + clicks evs) by lia.
      rewrite Z.add_mod_idemp_l by lia.
      f_equal; lia.
    + rewrite load_currentIndex.
      replace (clicks (VideoLoaded :: evs)) with (clicks evs)
        by (unfold clicks; cbn [filter isClick List.length]; lia).
      reflexivity.
Qed.

Lemma clicks_repeat n : clicks (repeat MiniVdClick n) = Z.of_nat n.
Proof.
  unfold clicks; induction n as [| n IH]; cbn [repeat filter isClick List.length].
  - reflexivity.
  - lia.
Qed.

End Cycle.

(** ** The two flags *)

Section Flags.

Variable totalVideos : Z.

Lemma dispatch_keeps_loading_off e s :
  loading s = false -> loading (dispatch totalVideos e s) = false.
Proof.
  intro Hoff; destruct e.
  - rewrite click_loading; exact Hoff.
  - rewrite load_loading, Hoff; destruct (_ =? _); reflexivity.
Qed.

Lemma dispatch_keeps_hasClicked e s :
  hasClicked s = true -> hasClicked (dispatch totalVideos e s) = true.
Proof.
  intro Hon; destruct e.
  - apply click_hasClicked.
  - rewrite load_hasClicked; exact Hon.
Qed.

Lemma run_keeps_hasClicked evs : forall s,
  hasClicked s = true -> hasClicked (run totalVideos evs s) = true.
Proof.
  induction evs as [| e evs IH]; intros s Hon; cbn.
  - exact Hon.
  - apply IH, dispatch_keeps_hasClicked, Hon.
Qed.

Lemma run_loadedVideos evs : forall s,
  loadedVideos (run totalVideos evs s) = loadedVideos s + loads evs.
Proof.
  unfold loads.
  induction evs as [| e evs IH]; intro s; cbn [run filter List.length].
  - cbn; lia.
  - rewrite IH; destruct e; cbn [isLoad List.length].
    + rewrite click_loadedVideos; reflexivity.
    + rewrite load_loadedVideos; lia.
Qed.

Lemma dispatch_loadingTracksCount e s :
  loadingTracksCount totalVideos s -> loadingTracksCount totalVideos (dispatch totalVideos e s).
Proof.
  unfold loadingTracksCount; intro Inv; destruct e.
  - rewrite click_loading, click_loadedVideos; exact Inv.
  - rewrite load_loading, load_loadedVideos, Inv.
    destruct (Z.eqb_spec (loadedVideos s + 1) (totalVideos - 1));
      destruct (Z.ltb_spec (loadedVideos s) (totalVideos - 1));
      destruct (Z.ltb_spec (loadedVideos s + 1) (totalVideos - 1));
      reflexivity || lia.
Qed.

Lemma run_loadingTracksCount evs : forall s,
  loadingTracksCount totalVideos s -> loadingTracksCount totalVideos (run totalVideos evs s).
Proof.
  induction evs as [| e evs IH]; intros s Inv; cbn.
  - exact Inv.
  - apply IH, dispatch_loadingTracksCount, Inv.
Qed.

Lemma mount_loadingTracksCount :
  1 <= totalVideos -> loadingTracksCount totalVideos (mount totalVideos).
Proof.
  intro Hpos; unfold loadingTracksCount, mount.
  rewrite loadingEffect_loading, loadingEffect_loadedVideos.
  change (loadedVideos initialState) with 0.
  change (loading initialState) with true.
  destruct (Z.eqb_spec 0 (totalVideos - 1));
    destruct (Z.ltb_spec 0 (totalVideos - 1)); reflexivity || lia.
Qed.

Lemma session_loading evs :
  1 <= totalVideos ->
  loading (run totalVideos evs (mount totalVideos))
  = (loads evs <? totalVideos - 1).
Proof.
  intro Hpos.
  rewrite (run_loadingTracksCount evs _ (mount_loadingTracksCount Hpos)).
  rewrite run_loadedVideos.
  unfold mount; rewrite loadingEffect_loadedVideos; reflexivity.
Qed.

Lemma loads_repeat n : loads (repeat VideoLoaded n) = Z.of_nat n.
Proof.
  unfold loads; induction n as [| n IH]; cbn [repeat filter isLoad List.length].
  - reflexivity.
  - lia.
Qed.

End Flags.

(** ** Locators *)

Section Locators.

Lemma getVideoSrc_unfold index :
  getVideoSrc index = "videos/hero-" ++ Js.NumberToString index ++ ".mp4".
Proof. reflexivity. Qed.

Lemma length_append (a b : string) :
  String.length (a ++ b) = (String.length a + String.length b)%nat.
Proof. induction a as [| c a IH]; cbn; [reflexivity | rewrite IH; reflexivity]. Qed.

Lemma append_cancel_r (x a b : string) :
  (a ++ x = b ++ x)%string -> a = b.
Proof.
  revert b; induction a as [| c a IH]; intros [| d b] E; cbn in E.
  - reflexivity.
  - apply (f_equal String.length) in E; cbn in E.
    rewrite length_append in E; lia.
  - apply (f_equal String.length) in E; cbn in E.
    rewrite length_append in E; lia.
  - injection E as -> E; f_equal; apply IH, E.
Qed.

Lemma to_int_proper z :
  Z.to_int z <> Decimal.Pos Decimal.Nil /\ Z.to_int z <> Decimal.Neg Decimal.Nil.
Proof.
  destruct z as [| p | p]; cbn; split; try discriminate;
    intros [= E]; exact (DecimalPos.Unsigned.to_uint_nonnil p E).
Qed.

Lemma NumberToString_inj i j :
  Js.NumberToString i = Js.NumberToString j -> i = j.
Proof.
  unfold Js.NumberToString; intro E.
  apply (f_equal NilZero.int_of_string) in E.
  destruct (to_int_proper i) as [Hi1 Hi2], (to_int_proper j) as [Hj1 Hj2].
  rewrite !NilZero.isi in E by assumption.
  injection E as E.
  rewrite <- (DecimalZ.of_to i), <- (DecimalZ.of_to j), E; reflexivity.
Qed.

(** Distinct indices have distinct locators. *)
Lemma getVideoSrc_inj i j : getVideoSrc i = getVideoSrc j -> i = j.
Proof.
  rewrite !getVideoSrc_unfold; intro E.
  injection E as E.
  apply NumberToString_inj, (append_cancel_r ".mp4"), E.
Qed.

End Locators.

(** ** The properties of the carousel sequencer *)

(** C1, as the specification words it, does not hold: after three clicks
    the shipped carousel is at its last clip, [currentIndex = 4], and the
    background element still asks for clip 4, not for clip 1. *)
Lemma background_last_clip_counterexample :
  ~ (forall s, reachable Shipped.totalVideos s ->
       backgroundSrc (render Shipped.totalVideos s)
       = getVideoSrc (if currentIndex s =? Shipped.totalVideos then 1
                      else currentIndex s)).
Proof.
  intro claim.
  specialize (claim _ (reachable_run Shipped.totalVideos (repeat MiniVdClick 3))).
  vm_compute in claim; discriminate claim.
Qed.

(** C1 (amended): in every state the background locator is
    [getVideoSrc currentIndex], except exactly at
    [currentIndex = totalVideos - 1], the clip before the last, where it is
    the locator of clip 1; the two differ if and only if
    [currentIndex = totalVideos - 1] and that index is not 1 itself.  With
    four clips the background shows clips 1, 2, 1, 4 at indices 1, 2, 3, 4. *)
Theorem background_special_case (totalVideos : Z) (s : HeroState) :
  backgroundSrc (render totalVideos s)
  = getVideoSrc (if currentIndex s =? totalVideos - 1 then 1 else currentIndex s)
  /\ backgroundSrc (render totalVideos s)
     = getVideoSrc (backgroundIndex totalVideos (currentIndex s))
  /\ (backgroundSrc (render totalVideos s) <> getVideoSrc (currentIndex s)
      <-> currentIndex s = totalVideos - 1 /\ currentIndex s <> 1)
  /\ map (fun st => backgroundSrc (render Shipped.totalVideos st))
       (trace Shipped.totalVideos (repeat MiniVdClick 3) (mount Shipped.totalVideos))
     = ["videos/hero-1.mp4"; "videos/hero-2.mp4"; "videos/hero-1.mp4";
        "videos/hero-4.mp4"].
Proof.
  split; [reflexivity |]. split; [reflexivity |]. split; [| reflexivity].
  cbn [render backgroundSrc]; unfold Js.strictEq.
  destruct (Z.eqb_spec (currentIndex s) (totalVideos - 1)) as [E | N]; split.
  - intro D; split; [exact E |].
    intro One; apply D; rewrite One; reflexivity.
  - intros [_ N1] Same; apply N1; symmetry; apply getVideoSrc_inj, Same.
  - intro D; exfalso; apply D; reflexivity.
  - intros [E _]; contradiction.
Qed.

(** C2: with at least two clips, in every state reached from a valid
    index by any events, the index is still valid, the preview index is
    [(currentIndex mod totalVideos) + 1], it differs from [currentIndex], the
    preview element shows that clip, and a click at the last clip goes
    back to clip 1. *)
Theorem preview_index_invariant
    (totalVideos : Z) (s0 : HeroState) (evs : list event) :
  2 <= totalVideos ->
  validIndex totalVideos (currentIndex s0) ->
  let s := run totalVideos evs s0 in
  validIndex totalVideos (currentIndex s)
  /\ previewIndex totalVideos (currentIndex s)
     = currentIndex s mod totalVideos + 1
  /\ previewIndex totalVideos (currentIndex s) <> currentIndex s
  /\ currentVideoSrc (render totalVideos s)
     = getVideoSrc (currentIndex s mod totalVideos + 1)
  /\ (currentIndex s = totalVideos ->
      currentIndex (dispatch totalVideos MiniVdClick s) = 1).
Proof.
  intros Htwo Hs0 s.
  assert (Hpos : 1 <= totalVideos) by lia.
  assert (Hs : validIndex totalVideos (currentIndex s))
    by (apply run_valid; assumption).
  pose proof (previewIndex_mod totalVideos Hpos _ Hs) as Hmod.
  pose proof (previewIndex_cases totalVideos Hpos _ Hs) as Hcases.
  repeat split; try apply Hs.
  - exact Hmod.
  - rewrite Hcases; destruct Hs as [Hlo Hhi].
    destruct (Z.eqb_spec (currentIndex s) totalVideos); lia.
  - cbn [render currentVideoSrc]; f_equal; exact Hmod.
  - intro Hlast.
    rewrite click_currentIndex, Hcases.
    apply Z.eqb_eq in Hlast; rewrite Hlast; reflexivity.
Qed.

Lemma preview_index_invariant_witness :
  let evs := [MiniVdClick; VideoLoaded; MiniVdClick; MiniVdClick] in
  let s := run 4 evs (mount 4) in
  validIndex 4 (currentIndex s)
  /\ previewIndex 4 (currentIndex s) = currentIndex s mod 4 + 1
  /\ previewIndex 4 (currentIndex s) <> currentIndex s
  /\ currentVideoSrc (render 4 s) = getVideoSrc (currentIndex s mod 4 + 1)
  /\ (currentIndex s = 4 -> currentIndex (dispatch 4 MiniVdClick s) = 1).
Proof.
  apply (preview_index_invariant 4 (mount 4)
           [MiniVdClick; VideoLoaded; MiniVdClick; MiniVdClick]).
  - lia.
  - unfold validIndex; simpl; lia.
Defined.

(** C3, as the specification words it, does not hold: the clip that was
    the preview does not always become the background.  With four clips
    at index 2 the preview is clip 3; after the click [currentIndex] is 3,
    the index the background element special-cases, and the background
    shows clip 1. *)
Lemma advance_background_counterexample :
  ~ (forall s, validIndex Shipped.totalVideos (currentIndex s) ->
       backgroundSrc
         (render Shipped.totalVideos (dispatch Shipped.totalVideos MiniVdClick s))
       = currentVideoSrc (render Shipped.totalVideos s)).
Proof.
  intro claim.
  assert (Hvalid : validIndex Shipped.totalVideos
                     (currentIndex (run Shipped.totalVideos [MiniVdClick]
                                      (mount Shipped.totalVideos))))
    by (unfold validIndex, Shipped.totalVideos; simpl; lia).
  specialize (claim _ Hvalid).
  vm_compute in claim; discriminate claim.
Qed.

(** C3 (amended): one click from a valid index is exactly
    [handleMiniVdClick]; it sets [hasClicked] and moves [currentIndex] to
    the former preview index, [(old currentIndex mod totalVideos) + 1].  The
    clip that was the preview is then the one the full-size transition
    element plays, and the one the background element shows unless the new
    index is [totalVideos - 1], where the background shows clip 1; the new
    preview is the cyclic successor of the new index; the loading cells
    are untouched. *)
Theorem advance_postcondition (totalVideos : Z) (s : HeroState) :
  validIndex totalVideos (currentIndex s) ->
  let s' := dispatch totalVideos MiniVdClick s in
  s' = handleMiniVdClick totalVideos s
  /\ hasClicked s' = true
  /\ currentIndex s' = previewIndex totalVideos (currentIndex s)
  /\ currentIndex s' = currentIndex s mod totalVideos + 1
  /\ nextVideoSrc (render totalVideos s') = currentVideoSrc (render totalVideos s)
  /\ currentVideoSrc (render totalVideos s')
     = getVideoSrc (currentIndex s' mod totalVideos + 1)
  /\ (currentIndex s' <> totalVideos - 1 ->
      backgroundSrc (render totalVideos s') = currentVideoSrc (render totalVideos s))
  /\ (currentIndex s' = totalVideos - 1 ->
      backgroundSrc (render totalVideos s') = getVideoSrc 1)
  /\ loading s' = loading s
  /\ loadedVideos s' = loadedVideos s.
Proof.
  intros Hs s'.
  assert (Hpos : 1 <= totalVideos) by (destruct Hs; lia).
  assert (Hs' : validIndex totalVideos (currentIndex s'))
    by (apply dispatch_valid; assumption).
  assert (Hstep : s' = handleMiniVdClick totalVideos s).
  { unfold s', dispatch, commit, Js.strictEq; cbn.
    rewrite Z.eqb_refl; reflexivity. }
  split; [exact Hstep |].
  split; [apply click_hasClicked |].
  split; [apply click_currentIndex |].
  split; [unfold s'; rewrite click_currentIndex; apply previewIndex_mod; assumption |].
  split; [cbn [render nextVideoSrc currentVideoSrc]; unfold s';
          rewrite click_currentIndex; reflexivity |].
  split; [cbn [render currentVideoSrc]; f_equal;
          apply (previewIndex_mod totalVideos Hpos _ Hs') |].
  split.
  { intro Hne; cbn [render backgroundSrc currentVideoSrc]; unfold Js.strictEq.
    destruct (Z.eqb_spec (currentIndex s') (totalVideos - 1)) as [E | _];
      [contradiction |].
    unfold s'; rewrite click_currentIndex; reflexivity. }
  split.
  { intro Heq; cbn [render backgroundSrc]; unfold Js.strictEq.
    rewrite Heq, Z.eqb_refl; reflexivity. }
  split; [apply click_loading | apply click_loadedVideos].
Qed.

Lemma advance_postcondition_witness :
  let s := run 4 [MiniVdClick] (mount 4) in
  let s' := dispatch 4 MiniVdClick s in
  s' = handleMiniVdClick 4 s
  /\ hasClicked s' = true
  /\ currentIndex s' = previewIndex 4 (currentIndex s)
  /\ currentIndex s' = currentIndex s mod 4 + 1
  /\ nextVideoSrc (render 4 s') = currentVideoSrc (render 4 s)
  /\ currentVideoSrc (render 4 s') = getVideoSrc (currentIndex s' mod 4 + 1)
  /\ (currentIndex s' <> 4 - 1 ->
      backgroundSrc (render 4 s') = currentVideoSrc (render 4 s))
  /\ (currentIndex s' = 4 - 1 ->
      backgroundSrc (render 4 s') = getVideoSrc 1)
  /\ loading s' = loading s
  /\ loadedVideos s' = loadedVideos s.
Proof.
  apply (advance_postcondition 4 (run 4 [MiniVdClick] (mount 4))).
  unfold validIndex; simpl; lia.
Defined.

(** C4: with at least one clip, [totalVideos] clicks from any valid index
    lead back to that index; the shipped carousel goes 1, 2, 3, 4, 1. *)
Theorem cyclic_closure (totalVideos : Z) (s : HeroState) :
  1 <= totalVideos ->
  validIndex totalVideos (currentIndex s) ->
  currentIndex (run totalVideos (repeat MiniVdClick (Z.to_nat totalVideos)) s)
  = currentIndex s
  /\ map currentIndex
       (trace Shipped.totalVideos (repeat MiniVdClick 4) (mount Shipped.totalVideos))
     = [1; 2; 3; 4; 1].
Proof.
  intros Hpos Hs; split; [| reflexivity].
  rewrite run_currentIndex, clicks_repeat by assumption.
  rewrite Z2Nat.id by lia.
  replace (currentIndex s - 1 + totalVideos)
    with (currentIndex s - 1 + 1 * totalVideos) by lia.
  rewrite Z.mod_add by lia.
  destruct Hs; rewrite Z.mod_small by lia; lia.
Qed.

Lemma cyclic_closure_witness :
  let s := run 4 [MiniVdClick; MiniVdClick] (mount 4) in
  currentIndex (run 4 (repeat MiniVdClick (Z.to_nat 4)) s) = currentIndex s
  /\ map currentIndex
       (trace Shipped.totalVideos (repeat MiniVdClick 4) (mount Shipped.totalVideos))
     = [1; 2; 3; 4; 1].
Proof.
  apply (cyclic_closure 4 (run 4 [MiniVdClick; MiniVdClick] (mount 4))).
  - lia.
  - unfold validIndex; simpl; lia.
Defined.

(** C5: the component mounts with [loadedVideos = 0]; after exactly
    [totalVideos - 1] load signals the loading flag is false, after fewer
    it is still true, and from then on one more signal leaves it as it is,
    false. *)
Theorem loading_threshold (totalVideos : Z) :
  1 <= totalVideos ->
  let after (k : nat) :=
    run totalVideos (repeat VideoLoaded k) (mount totalVideos) in
  loading initialState = true
  /\ loadedVideos (mount totalVideos) = 0
  /\ loading (after (Z.to_nat (totalVideos - 1))) = false
  /\ (forall k, Z.of_nat k < totalVideos - 1 -> loading (after k) = true)
  /\ (forall k, totalVideos - 1 <= Z.of_nat k ->
        loading (after k) = false
        /\ loading (dispatch totalVideos VideoLoaded (after k)) = loading (after k)).
Proof.
  intros Hpos after.
  assert (Hafter : forall k, loading (after k) = (Z.of_nat k <? totalVideos - 1)).
  { intro k; unfold after.
    rewrite session_loading, loads_repeat by exact Hpos; reflexivity. }
  split; [reflexivity |].
  split; [unfold mount; rewrite loadingEffect_loadedVideos; reflexivity |].
  split; [| split].
  - rewrite Hafter, Z2Nat.id by lia. apply Z.ltb_irrefl.
  - intros k Hk; rewrite Hafter; apply Z.ltb_lt, Hk.
  - intros k Hk.
    assert (Hoff : loading (after k) = false)
      by (rewrite Hafter; apply Z.ltb_ge, Hk).
    split; [exact Hoff |].
    rewrite Hoff; apply dispatch_keeps_loading_off, Hoff.
Qed.

Lemma loading_threshold_witness :
  let after (k : nat) := run 4 (repeat VideoLoaded k) (mount 4) in
  loading initialState = true
  /\ loadedVideos (mount 4) = 0
  /\ loading (after (Z.to_nat (4 - 1))) = false
  /\ (forall k, Z.of_nat k < 4 - 1 -> loading (after k) = true)
  /\ (forall k, 4 - 1 <= Z.of_nat k ->
        loading (after k) = false
        /\ loading (dispatch 4 VideoLoaded (after k)) = loading (after k)).
Proof.
  apply (loading_threshold 4); lia.
Defined.

(** C6: once the loading flag is false, no sequence of clicks and load
    signals brings it back: the flag stays false and the loading screen
    is not rendered again. *)
Theorem loading_latch_permanent
    (totalVideos : Z) (s : HeroState) (evs : list event) :
  loading s = false ->
  loading (run totalVideos evs s) = false
  /\ loadingScreen (render totalVideos (run totalVideos evs s)) = false.
Proof.
  intro Hoff.
  assert (Hrun : loading (run totalVideos evs s) = false).
  { revert s Hoff; induction evs as [| e evs IH]; intros s Hoff; cbn [run].
    - exact Hoff.
    - apply IH, dispatch_keeps_loading_off, Hoff. }
  split; [exact Hrun | exact Hrun].
Qed.

Lemma loading_latch_permanent_witness :
  let s := run 4 [VideoLoaded; VideoLoaded; VideoLoaded] (mount 4) in
  let evs := [MiniVdClick; VideoLoaded; VideoLoaded; MiniVdClick; VideoLoaded] in
  loadedVideos s = 4 - 1
  /\ loading s = false
  /\ loading (run 4 evs s) = false
  /\ loadingScreen (render 4 (run 4 evs s)) = false.
Proof.
  split; [reflexivity |]. split; [reflexivity |].
  apply (loading_latch_permanent 4
           (run 4 [VideoLoaded; VideoLoaded; VideoLoaded] (mount 4))
           [MiniVdClick; VideoLoaded; VideoLoaded; MiniVdClick; VideoLoaded]).
  reflexivity.
Defined.

(** C7, as the specification words it, does not hold: index 0 is outside
    [1 .. 4] and the call does not fail. *)
Lemma getVideoSrc_out_of_range_counterexample :
  ~ (forall index, ~ validIndex Shipped.totalVideos index ->
       exists name, getVideoSrc_call index = Js.Throw name).
Proof.
  intro claim.
  destruct (claim 0) as [name Hthrow].
  - unfold validIndex; lia.
  - discriminate Hthrow.
Qed.

(** C7 (amended): [getVideoSrc] formats its index into the locator, for an
    index inside [1 .. totalVideos] and for one outside alike; it checks
    no range and does not fail. *)
Theorem getVideoSrc_domain (totalVideos index : Z) :
  (validIndex totalVideos index ->
     getVideoSrc_call index
     = Js.Normal ("videos/hero-" ++ Js.NumberToString index ++ ".mp4"))
  /\ (~ validIndex totalVideos index ->
        getVideoSrc_call index
        = Js.Normal ("videos/hero-" ++ Js.NumberToString index ++ ".mp4")
        /\ forall name, getVideoSrc_call index <> Js.Throw name).
Proof.
  split.
  - intros _; reflexivity.
  - intros _; split; [reflexivity | discriminate].
Qed.

Lemma getVideoSrc_domain_witness :
  ~ validIndex 4 0
  /\ getVideoSrc_call 0 = Js.Normal "videos/hero-0.mp4"
  /\ validIndex 4 2
  /\ getVideoSrc_call 2 = Js.Normal "videos/hero-2.mp4".
Proof.
  assert (Hout : ~ validIndex 4 0) by (unfold validIndex; lia).
  assert (Hin : validIndex 4 2) by (unfold validIndex; lia).
  split; [exact Hout |].
  split; [exact (proj1 (proj2 (getVideoSrc_domain 4 0) Hout)) |].
  split; [exact Hin |].
  exact (proj1 (getVideoSrc_domain 4 2) Hin).
Defined.

(** C9: [hasClicked] starts false; from the first click on, whatever
    came before it and whatever follows, it is true: no event resets it. *)
Theorem hasClicked_latch
    (totalVideos : Z) (s : HeroState) (before after : list event) :
  hasClicked (mount totalVideos) = false
  /\ hasClicked (run totalVideos (before ++ MiniVdClick :: after)%list s) = true.
Proof.
  split.
  - unfold mount; rewrite loadingEffect_hasClicked; reflexivity.
  - rewrite run_app; cbn [run].
    apply run_keeps_hasClicked, click_hasClicked.
Qed.

(** C10: for every integer index, zero, negative or beyond the last clip
    included, a call of [getVideoSrc] returns, never throws, and its value
    is that of ["videos/hero-" + index + ".mp4"]; equal indices give equal
    results. *)
Theorem getVideoSrc_total (index : Z) :
  getVideoSrc_call index
  = Js.Normal
      (Js.ToString
         (Js.add (Js.add (Js.Str "videos/hero-") (Js.Num index)) (Js.Str ".mp4")))
  /\ (forall name, getVideoSrc_call index <> Js.Throw name)
  /\ (forall other, other = index -> getVideoSrc_call other = getVideoSrc_call index)
  /\ getVideoSrc_call 0 = Js.Normal "videos/hero-0.mp4"
  /\ getVideoSrc_call (-1) = Js.Normal "videos/hero--1.mp4"
  /\ getVideoSrc_call (Shipped.totalVideos + 1) = Js.Normal "videos/hero-5.mp4".
Proof.
  split; [reflexivity |].
  split; [discriminate |].
  split; [intros other ->; reflexivity |].
  repeat split.
Qed.

(** ** Further properties of the carousel *)

Section CarouselLaws.

Variable totalVideos : Z.

Lemma HeroState_eta (s t : HeroState) :
  currentIndex s = currentIndex t -> hasClicked s = hasClicked t ->
  loading s = loading t -> loadedVideos s = loadedVideos t -> s = t.
Proof. destruct s, t; cbn; intros; subst; reflexivity. Qed.

Lemma dispatch_click_load_commute s :
  dispatch totalVideos MiniVdClick (dispatch totalVideos VideoLoaded s)
  = dispatch totalVideos VideoLoaded (dispatch totalVideos MiniVdClick s).
Proof.
  apply HeroState_eta.
  - rewrite click_currentIndex, !load_currentIndex, click_currentIndex; reflexivity.
  - rewrite click_hasClicked, load_hasClicked, click_hasClicked; reflexivity.
  - rewrite click_loading, !load_loading, click_loading, click_loadedVideos; reflexivity.
  - rewrite click_loadedVideos, !load_loadedVideos, click_loadedVideos; reflexivity.
Qed.

Lemma dispatch_commute e1 e2 s :
  dispatch totalVideos e1 (dispatch totalVideos e2 s)
  = dispatch totalVideos e2 (dispatch totalVideos e1 s).
Proof.
  destruct e1, e2; try reflexivity.
  - apply dispatch_click_load_commute.
  - symmetry; apply dispatch_click_load_commute.
Qed.

Lemma run_hasClicked evs : forall s,
  hasClicked (run totalVideos evs s) = hasClicked s || (0 <? clicks evs).
Proof.
  induction evs as [| e evs IH]; intro s; cbn [run].
  - unfold clicks; cbn. rewrite orb_false_r; reflexivity.
  - rewrite IH; destruct e.
    + rewrite click_hasClicked; cbn [orb].
      unfold clicks; cbn [filter isClick List.length].
      symmetry; rewrite orb_true_iff; right; apply Z.ltb_lt; lia.
    + rewrite load_hasClicked; reflexivity.
Qed.

End CarouselLaws.

Section TransitionFacts.

Import HeroTransition.

Variable totalVideos : Z.

Lemma transitionOnEvent_load s :
  transitionOnEvent totalVideos VideoLoaded s = [].
Proof.
  unfold transitionOnEvent, transitionOnCommit, Js.strictEq; cbn [handler].
  change (commit totalVideos s (handleVideoLoad s))
    with (dispatch totalVideos VideoLoaded s).
  rewrite load_currentIndex.
  change (currentIndex (handleVideoLoad s)) with (currentIndex s).
  rewrite Z.eqb_refl; reflexivity.
Qed.

Lemma transitionOnEvent_click s :
  transitionOnEvent totalVideos MiniVdClick s
  = if currentIndex s =? previewIndex totalVideos (currentIndex s)
    then []
    else [SetNextVideoVisible; ToNextVideoFullSize; FromCurrentVideoScale0].
Proof.
  unfold transitionOnEvent, transitionOnCommit, Js.strictEq; cbn [handler].
  change (commit totalVideos s (handleMiniVdClick totalVideos s))
    with (dispatch totalVideos MiniVdClick s).
  rewrite click_currentIndex.
  change (currentIndex (handleMiniVdClick totalVideos s))
    with (previewIndex totalVideos (currentIndex s)).
  rewrite Z.eqb_refl, app_nil_r.
  destruct (_ =? _); reflexivity.
Qed.

End TransitionFacts.


(** X1: the state of the mounted carousel after any sequence of clicks
    and load signals, in closed form: the clip is the number of clicks
    counted round the cycle, [hasClicked] says whether there was a click,
    the loading flag whether fewer than [totalVideos - 1] signals came, and
    the counter is the number of signals.  Clicks do not touch the loading
    cells, load signals do not touch the carousel. *)
Theorem session_closed_form (totalVideos : Z) (evs : list event) :
  1 <= totalVideos ->
  run totalVideos evs (mount totalVideos)
  = {| currentIndex := clicks evs mod totalVideos + 1;
       hasClicked := 0 <? clicks evs;
       loading := loads evs <? totalVideos - 1;
       loadedVideos := loads evs |}.
Proof.
  intro Hpos.
  assert (Hidx : currentIndex (mount totalVideos) = 1)
    by (unfold mount; rewrite loadingEffect_currentIndex; reflexivity).
  apply HeroState_eta; cbn [currentIndex hasClicked loading loadedVideos].
  - rewrite run_currentIndex, Hidx by (unfold validIndex; lia).
    f_equal; f_equal; lia.
  - rewrite run_hasClicked.
    unfold mount; rewrite loadingEffect_hasClicked; reflexivity.
  - apply session_loading, Hpos.
  - rewrite run_loadedVideos.
    unfold mount; rewrite loadingEffect_loadedVideos; reflexivity.
Qed.

Lemma session_closed_form_witness :
  let evs := [VideoLoaded; MiniVdClick; VideoLoaded; MiniVdClick; MiniVdClick;
              VideoLoaded; MiniVdClick; MiniVdClick; VideoLoaded] in
  run 4 evs (mount 4)
  = {| currentIndex := clicks evs mod 4 + 1;
       hasClicked := 0 <? clicks evs;
       loading := loads evs <? 4 - 1;
       loadedVideos := loads evs |}.
Proof.
  apply (session_closed_form 4); lia.
Defined.

(** X2: the order in which clicks and load signals arrive does not
    matter: two sequences with the same events in any order lead from a
    state to the same state. *)
Theorem run_order_irrelevant
    (totalVideos : Z) (evs evs' : list event) (s : HeroState) :
  Permutation evs evs' ->
  run totalVideos evs s = run totalVideos evs' s.
Proof.
  intro Hperm; revert s.
  induction Hperm as [| e l l' _ IH | e1 e2 l | l l' l'' _ IH1 _ IH2]; intro s.
  - reflexivity.
  - cbn [run]; apply IH.
  - cbn [run]; rewrite dispatch_commute; reflexivity.
  - rewrite IH1; apply IH2.
Qed.

Lemma run_order_irrelevant_witness :
  run 4 [MiniVdClick; VideoLoaded; VideoLoaded; MiniVdClick] (mount 4)
  = run 4 [VideoLoaded; MiniVdClick; MiniVdClick; VideoLoaded] (mount 4).
Proof.
  apply (run_order_irrelevant 4).
  apply (perm_trans (l' := [VideoLoaded; MiniVdClick; VideoLoaded; MiniVdClick])).
  - apply perm_swap.
  - apply perm_skip, perm_skip, perm_swap.
Defined.

(** X3: with at least two clips and a valid index, every click makes the
    three calls of the transition animation, in order, and no load signal
    makes any: the log of a run is that of its clicks. *)
Theorem transitions_follow_clicks
    (totalVideos : Z) (evs : list event) (s : HeroState) :
  2 <= totalVideos ->
  validIndex totalVideos (currentIndex s) ->
  HeroTransition.transitionLog totalVideos evs s
  = map (fun e =>
           if isClick e
           then [HeroTransition.SetNextVideoVisible;
                 HeroTransition.ToNextVideoFullSize;
                 HeroTransition.FromCurrentVideoScale0]
           else [])
        evs.
Proof.
  intros Htwo; revert s.
  induction evs as [| e evs IH]; intros s Hs; cbn [HeroTransition.transitionLog map].
  - reflexivity.
  - rewrite IH by (apply dispatch_valid; [lia | exact Hs]).
    f_equal; destruct e; cbn [isClick].
    + rewrite transitionOnEvent_click.
      rewrite previewIndex_cases by (lia || exact Hs).
      destruct Hs as [Hlo Hhi].
      destruct (Z.eqb_spec (currentIndex s) totalVideos) as [E | N].
      * destruct (Z.eqb_spec (currentIndex s) 1); [lia | reflexivity].
      * destruct (Z.eqb_spec (currentIndex s) (currentIndex s + 1));
          [lia | reflexivity].
    + apply transitionOnEvent_load.
Qed.

Lemma transitions_follow_clicks_witness :
  HeroTransition.transitionLog 4 [VideoLoaded; MiniVdClick; MiniVdClick] (mount 4)
  = map (fun e =>
           if isClick e
           then [HeroTransition.SetNextVideoVisible;
                 HeroTransition.ToNextVideoFullSize;
                 HeroTransition.FromCurrentVideoScale0]
           else [])
        [VideoLoaded; MiniVdClick; MiniVdClick].
Proof.
  apply (transitions_follow_clicks 4 [VideoLoaded; MiniVdClick; MiniVdClick] (mount 4)).
  - lia.
  - unfold validIndex; simpl; lia.
Defined.

(** X4: a carousel of a single clip never animates: nothing on mount,
    and no click or load signal makes any call of the transition, because a
    click leaves [currentIndex], the dependency of the effect, at 1. *)
Theorem single_clip_never_animates (evs : list event) :
  HeroTransition.transitionOnMount = []
  /\ List.concat (HeroTransition.transitionLog 1 evs (mount 1)) = [].
Proof.
  split; [reflexivity |].
  assert (Hgen : forall s, currentIndex s = 1 ->
            List.concat (HeroTransition.transitionLog 1 evs s) = []).
  { induction evs as [| e evs IH]; intros s Hs;
      cbn [HeroTransition.transitionLog List.concat].
    - reflexivity.
    - rewrite IH.
      + rewrite app_nil_r; destruct e.
        * rewrite transitionOnEvent_click, Hs; reflexivity.
        * apply transitionOnEvent_load.
      + destruct e.
        * rewrite click_currentIndex, Hs; reflexivity.
        * rewrite load_currentIndex; exact Hs. }
  apply Hgen; reflexivity.
Qed.

(** X5: with at least two clips and a valid index, the mini preview never
    shows the clip of the transition element nor the clip of the
    background element. *)
Theorem preview_shows_another_clip (totalVideos : Z) (s : HeroState) :
  2 <= totalVideos ->
  validIndex totalVideos (currentIndex s) ->
  currentVideoSrc (render totalVideos s) <> nextVideoSrc (render totalVideos s)
  /\ currentVideoSrc (render totalVideos s) <> backgroundSrc (render totalVideos s).
Proof.
  intros Htwo Hs.
  cbn [render currentVideoSrc nextVideoSrc backgroundSrc].
  change (Js.rem (currentIndex s) totalVideos + 1)
    with (previewIndex totalVideos (currentIndex s)).
  rewrite previewIndex_cases by (lia || exact Hs).
  destruct Hs as [Hlo Hhi]; unfold Js.strictEq.
  split; intro Same; apply getVideoSrc_inj in Same; revert Same;
    destruct (Z.eqb_spec (currentIndex s) totalVideos);
    try destruct (Z.eqb_spec (currentIndex s) (totalVideos - 1)); lia.
Qed.

Lemma preview_shows_another_clip_witness :
  let s := run 4 [MiniVdClick; MiniVdClick] (mount 4) in
  currentVideoSrc (render 4 s) <> nextVideoSrc (render 4 s)
  /\ currentVideoSrc (render 4 s) <> backgroundSrc (render 4 s).
Proof.
  apply (preview_shows_another_clip 4 (run 4 [MiniVdClick; MiniVdClick] (mount 4))).
  - lia.
  - unfold validIndex; simpl; lia.
Defined.

(** X6: two indices have the same locator only if they are the same
    index. *)
Theorem getVideoSrc_injective (i j : Z) :
  getVideoSrc i = getVideoSrc j <-> i = j.
Proof.
  split.
  - apply getVideoSrc_inj.
  - intros ->; reflexivity.
Qed.

(** X7: unless there are exactly two clips, the background element never
    shows clip [totalVideos - 1]: at that index it shows clip 1, and at
    every other index it shows the clip of that index. *)
Theorem background_skips_one_clip (totalVideos : Z) (s : HeroState) :
  totalVideos <> 2 ->
  backgroundSrc (render totalVideos s) <> getVideoSrc (totalVideos - 1).
Proof.
  intros Hne Same.
  cbn [render backgroundSrc] in Same; unfold Js.strictEq in Same.
  apply getVideoSrc_inj in Same.
  destruct (Z.eqb_spec (currentIndex s) (totalVideos - 1)); lia.
Qed.

Lemma background_skips_one_clip_witness :
  backgroundSrc (render 4 (run 4 [MiniVdClick; MiniVdClick] (mount 4)))
  <> getVideoSrc (4 - 1).
Proof.
  apply (background_skips_one_clip 4); lia.
Defined.

(** ** The navigation bar *)

Section NavBarFacts.

Import NavBar.

Lemma strictEq_spec a b : reflect (a == b)%Q (strictEq a b).
Proof.
  unfold strictEq; destruct (Qeq_bool a b) eqn:E; constructor.
  - apply Qeq_bool_iff, E.
  - apply Qeq_bool_neq, E.
Qed.

Lemma gt_spec a b : reflect (b < a)%Q (gt a b).
Proof.
  unfold gt; destruct (Qle_bool a b) eqn:E; constructor.
  - apply Qle_not_lt, Qle_bool_iff, E.
  - apply Qnot_le_lt; intro H; apply Qle_bool_iff in H; congruence.
Qed.

Lemma lt_spec a b : reflect (a < b)%Q (lt a b).
Proof. exact (gt_spec b a). Qed.

Lemma strictEq_refl a : strictEq a a = true.
Proof. apply Qeq_bool_refl. Qed.

Lemma gt_irrefl a : gt a a = false.
Proof. destruct (gt_spec a a) as [H | _]; [lra | reflexivity]. Qed.

Lemma lt_irrefl a : lt a a = false.
Proof. apply gt_irrefl. Qed.

Lemma sameState_refl s : sameState s s = true.
Proof.
  unfold sameState; rewrite !Bool.eqb_reflx, !strictEq_refl; reflexivity.
Qed.

(** The state the scroll effect asks for does not depend on the elements. *)
Lemma scrollEffect_state s d :
  fst (scrollEffect s s d)
  = setLastScrollY (currentScrollY s)
      (if strictEq (currentScrollY s) 0 then setIsNavVisible true s
       else if gt (currentScrollY s) (lastScrollY s) then setIsNavVisible false s
       else if lt (currentScrollY s) (lastScrollY s) then setIsNavVisible true s
       else s).
Proof.
  unfold scrollEffect.
  destruct (strictEq _ 0); [reflexivity |].
  destruct (gt _ _); [reflexivity |].
  destruct (lt _ _); reflexivity.
Qed.

Lemma scrollEffect_dom s d :
  snd (scrollEffect s s d)
  = if strictEq (currentScrollY s) 0 then classListRemove d
    else if gt (currentScrollY s) (lastScrollY s) then classListAdd d
    else if lt (currentScrollY s) (lastScrollY s) then classListAdd d
    else d.
Proof.
  unfold scrollEffect.
  destruct (strictEq _ 0); [reflexivity |].
  destruct (gt _ _); [reflexivity |].
  destruct (lt _ _); reflexivity.
Qed.

(** Once [lastScrollY] holds the current offset, and the bar is shown if
    that offset is the top, the scroll effect asks for no change. *)
Lemma scrollEffect_fixed s d :
  lastScrollY s = currentScrollY s ->
  (strictEq (currentScrollY s) 0 = true -> isNavVisible s = true) ->
  fst (scrollEffect s s d) = s.
Proof.
  intros Hlast Htop; rewrite scrollEffect_state, Hlast, gt_irrefl, lt_irrefl.
  destruct s as [ap ia vis last cur]; cbn in *; subst last.
  destruct (strictEq cur 0); cbn; [rewrite Htop by reflexivity |]; reflexivity.
Qed.

Lemma scrollEffect_reaches_fixed s d :
  let n := fst (scrollEffect s s d) in
  lastScrollY n = currentScrollY n
  /\ (strictEq (currentScrollY n) 0 = true -> isNavVisible n = true).
Proof.
  cbn zeta; rewrite scrollEffect_state.
  destruct s as [ap ia vis last cur]; cbn.
  destruct (strictEq cur 0) eqn:E0; cbn; [split; [reflexivity | reflexivity] |].
  destruct (gt cur last); cbn; [split; [reflexivity | congruence] |].
  destruct (lt cur last); cbn; (split; [reflexivity | congruence]).
Qed.

Lemma runEffects_state prev s d :
  fst (runEffects prev s d) = s
  \/ exists d0, fst (runEffects prev s d) = fst (scrollEffect s s d0).
Proof.
  unfold runEffects.
  destruct (scrollDepsChanged prev s).
  - right; eexists.
    destruct (scrollEffect s s _) as [n d2] eqn:E; cbn.
    rewrite E; reflexivity.
  - left; reflexivity.
Qed.

(** The second render of an event asks for no further change. *)
Lemma runEffects_second prev s d n d' :
  runEffects prev s d = (n, d') ->
  sameState n s = false ->
  forall d'', fst (runEffects (Some s) n d'') = n.
Proof.
  intros R1 Hdiff d''.
  destruct (runEffects_state prev s d) as [Hs | [d0 Hn]]; rewrite R1 in *; cbn in *.
  - subst n; rewrite sameState_refl in Hdiff; discriminate.
  - destruct (scrollEffect_reaches_fixed s d0) as [Hlast Htop].
    rewrite <- Hn in Hlast, Htop.
    destruct (runEffects_state (Some s) n d'') as [E | [d1 E]]; rewrite E.
    + reflexivity.
    + apply scrollEffect_fixed; assumption.
Qed.

Lemma settle_two fuel prev s d :
  settle (S (S fuel)) prev s d = settle 2 prev s d
  /\ settle 2 prev s d <> None.
Proof.
  cbn [settle].
  destruct (runEffects prev s d) as [n d'] eqn:R1.
  destruct (sameState n s) eqn:Hsame; [split; [reflexivity | discriminate] |].
  pose proof (runEffects_second _ _ _ _ _ R1 Hsame d') as R2.
  destruct (runEffects (Some s) n d') as [n2 d2]; cbn in R2; subst n2.
  rewrite sameState_refl; split; [reflexivity | discriminate].
Qed.

End NavBarFacts.

Section NavBarSteps.

Import NavBar.

Ltac nav_simpl :=
  cbn -[strictEq gt lt];
  rewrite ?Bool.eqb_reflx, ?strictEq_refl, ?gt_irrefl, ?lt_irrefl;
  cbn -[strictEq gt lt].

Ltac nav_cases :=
  nav_simpl;
  repeat (match goal with
          | |- context [strictEq ?a ?b] => destruct (strictEq_spec a b)
          | |- context [gt ?a ?b] => destruct (gt_spec a b)
          | |- context [lt ?a ?b] => destruct (lt_spec a b)
          end; try (exfalso; lra); nav_simpl).

(** A scroll event on a component at rest. *)
Lemma dispatch_scroll fuel y s d :
  atRest (s, d) ->
  let moved := negb (strictEq (currentScrollY s) y) in
  let vis' := if moved then strictEq y 0 || lt y (currentScrollY s)
              else isNavVisible s in
  dispatch (S (S fuel)) (Scroll y) (s, d)
  = Some ({| isAudioPlaying := isAudioPlaying s;
             isIndicatorActive := isIndicatorActive s;
             isNavVisible := vis';
             lastScrollY := if moved then y else lastScrollY s;
             currentScrollY := y |},
          {| audioPlaying := audioPlaying d;
             floatingNav := negb (strictEq y 0);
             navY := if vis' then 0 else -100;
             navOpacity := if vis' then 1 else 0 |}).
Proof.
  intros [Hlast Hind Haud Hfl Hy Hop Htop]; cbn zeta.
  unfold dispatch; rewrite (proj1 (settle_two fuel _ _ _)).
  destruct s as [ap ia vis last cur], d as [pl fl ny no]; cbn -[strictEq gt lt] in *.
  subst ia pl fl ny no.
  unfold settle, runEffects, audioDepsChanged, scrollDepsChanged,
    visibilityDepsChanged, scrollEffect, visibilityEffect, audioEffect,
    sameState; cbn.
  nav_cases.
  all: destruct vis; cbn; try reflexivity.
Qed.

(** A click on the audio button, whatever the state. *)
Lemma dispatch_audio fuel s d :
  dispatch (S (S fuel)) AudioClick (s, d)
  = Some (toggleAudioIndicator s,
          {| audioPlaying := negb (isAudioPlaying s);
             floatingNav := floatingNav d;
             navY := navY d;
             navOpacity := navOpacity d |}).
Proof.
  unfold dispatch; rewrite (proj1 (settle_two fuel _ _ _)).
  destruct s as [ap ia vis last cur], d as [pl fl ny no].
  unfold settle, runEffects, audioDepsChanged, scrollDepsChanged,
    visibilityDepsChanged, scrollEffect, visibilityEffect, audioEffect,
    sameState.
  nav_simpl.
  destruct ap; nav_simpl; reflexivity.
Qed.

(** The first render and its effects, with the window at offset [y0]. *)
Lemma mount_result fuel y0 :
  let vis := negb (gt y0 0) in
  mount (S (S fuel)) y0
  = Some ({| isAudioPlaying := false;
             isIndicatorActive := false;
             isNavVisible := vis;
             lastScrollY := if strictEq y0 0 then 0%Q else y0;
             currentScrollY := y0 |},
          {| audioPlaying := false;
             floatingNav := negb (strictEq y0 0);
             navY := if vis then 0 else -100;
             navOpacity := if vis then 1 else 0 |}).
Proof.
  cbn zeta; unfold mount; rewrite (proj1 (settle_two fuel _ _ _)).
  unfold settle, runEffects, audioDepsChanged, scrollDepsChanged,
    visibilityDepsChanged, scrollEffect, visibilityEffect, audioEffect,
    sameState, initialState, initialDom.
  nav_cases.
  all: reflexivity.
Qed.

Lemma mount_atRest fuel y0 :
  exists c, mount (S (S fuel)) y0 = Some c /\ atRest c.
Proof.
  eexists; split; [apply mount_result |].
  constructor; cbn; try reflexivity.
  - destruct (strictEq_spec y0 0); lra.
  - intro Htop; destruct (gt_spec y0 0) as [Hpos | _]; [| reflexivity].
    destruct (strictEq_spec y0 0); [lra | discriminate].
Qed.

Lemma dispatch_atRest fuel e c :
  atRest c -> exists c', dispatch (S (S fuel)) e c = Some c' /\ atRest c'.
Proof.
  destruct c as [s d]; intro Hrest; destruct e as [y |].
  - eexists; split; [apply dispatch_scroll, Hrest |].
    destruct Hrest as [Hlast Hind Haud Hfl Hy Hop Htop]; cbn in *.
    constructor; cbn; try assumption; try reflexivity.
    + destruct (strictEq_spec (currentScrollY s) y); cbn; lra.
    + intro Hzero.
      destruct (strictEq_spec (currentScrollY s) y) as [Hsame | _]; cbn.
      * apply Htop.
        destruct (strictEq_spec y 0); [| discriminate].
        destruct (strictEq_spec (currentScrollY s) 0); [reflexivity | lra].
      * rewrite Hzero; reflexivity.
  - eexists; split; [apply dispatch_audio |].
    destruct Hrest as [Hlast Hind Haud Hfl Hy Hop Htop]; cbn in *.
    constructor; cbn; try assumption; try reflexivity.
    rewrite Hind; reflexivity.
Qed.

Lemma run_atRest fuel evs : forall c,
  atRest c -> exists c', run (S (S fuel)) evs c = Some c' /\ atRest c'.
Proof.
  induction evs as [| e evs IH]; intros c Hrest.
  - exists c; split; [reflexivity | exact Hrest].
  - destruct (dispatch_atRest fuel e c Hrest) as [c1 [E1 R1]].
    destruct (IH c1 R1) as [c2 [E2 R2]].
    exists c2; split; [| exact R2].
    cbn [run]; rewrite E1; exact E2.
Qed.

Lemma session_atRest fuel y0 evs :
  exists c, session (S (S fuel)) y0 evs = Some c /\ atRest c.
Proof.
  destruct (mount_atRest fuel y0) as [c0 [E0 R0]].
  destruct (run_atRest fuel evs c0 R0) as [c [E R]].
  exists c; split; [| exact R].
  unfold session; rewrite E0; exact E.
Qed.

Lemma run_snoc_nav fuel evs e : forall c,
  run fuel (evs ++ [e])%list c
  = match run fuel evs c with
    | Some c' => dispatch fuel e c'
    | None => None
    end.
Proof.
  induction evs as [| e0 evs IH]; intro c; cbn [run app].
  - destruct (dispatch fuel e c); reflexivity.
  - destruct (dispatch fuel e0 c); [apply IH | reflexivity].
Qed.

Lemma session_snoc fuel y0 evs e :
  session fuel y0 (evs ++ [e])%list
  = match session fuel y0 evs with
    | Some c => dispatch fuel e c
    | None => None
    end.
Proof.
  unfold session; destruct (mount fuel y0); [apply run_snoc_nav | reflexivity].
Qed.

Lemma run_audio fuel evs : forall c,
  atRest c ->
  exists c', run (S (S fuel)) evs c = Some c'
    /\ isAudioPlaying (fst c')
       = xorb (isAudioPlaying (fst c)) (Nat.odd (audioClicks evs)).
Proof.
  induction evs as [| e evs IH]; intros c Hrest.
  - exists c; split; [reflexivity |].
    cbn; rewrite xorb_false_r; reflexivity.
  - destruct (dispatch_atRest fuel e c Hrest) as [c1 [E1 R1]].
    destruct (IH c1 R1) as [c2 [E2 A2]].
    exists c2; split; [cbn [run]; rewrite E1; exact E2 |].
    rewrite A2; destruct c as [s d], e as [y |].
    + rewrite dispatch_scroll in E1 by exact Hrest.
      injection E1 as <-; reflexivity.
    + rewrite dispatch_audio in E1; injection E1 as <-.
      unfold audioClicks; cbn [filter List.length fst toggleAudioIndicator
        setIsIndicatorActive setIsAudioPlaying isAudioPlaying].
      rewrite Nat.odd_succ, <- Nat.negb_odd.
      destruct (isAudioPlaying s), (Nat.odd _); reflexivity.
Qed.

End NavBarSteps.

(** X8: the render loop of the navigation bar always stops.  The scroll
    effect sets [lastScrollY], one of its own dependencies, yet from any
    state and any elements the second render asks for no change: two
    renders are enough, and more fuel gives the same result. *)
Theorem navbar_render_loop_stops
    (fuel : nat) (prev : option NavBar.NavState)
    (s : NavBar.NavState) (d : NavBar.NavDom) :
  exists c,
    NavBar.settle 2 prev s d = Some c
    /\ NavBar.settle (S (S fuel)) prev s d = Some c.
Proof.
  destruct (settle_two fuel prev s d) as [Hsame Hsome].
  destruct (NavBar.settle 2 prev s d) as [c |] eqn:E; [| contradiction].
  exists c; split; [reflexivity | exact Hsame].
Qed.

(** X9: whenever the navigation bar has come to rest, after mounting at
    any offset and any sequence of scrolls and audio clicks: [lastScrollY]
    holds the current offset; the container carries the floating class
    exactly when the offset is not 0; at offset 0 the bar is shown; and
    the container is animated to y 0, opacity 1 when the bar is shown, to
    y -100, opacity 0 when it is hidden. *)
Theorem navbar_at_rest (fuel : nat) (y0 : Q) (evs : list NavBar.event) :
  exists s d,
    NavBar.session (S (S fuel)) y0 evs = Some (s, d)
    /\ (NavBar.lastScrollY s == NavBar.currentScrollY s)%Q
    /\ NavBar.floatingNav d
       = negb (NavBar.strictEq (NavBar.currentScrollY s) 0)
    /\ (if NavBar.strictEq (NavBar.currentScrollY s) 0
        then NavBar.isNavVisible s else true) = true
    /\ NavBar.navY d = (if NavBar.isNavVisible s then 0 else -100)
    /\ NavBar.navOpacity d = (if NavBar.isNavVisible s then 1 else 0).
Proof.
  destruct (session_atRest fuel y0 evs) as [[s d] [E R]].
  exists s, d; split; [exact E |].
  destruct R as [Hlast Hind Haud Hfl Hy Hop Htop]; cbn in *.
  repeat split; try assumption.
  destruct (NavBar.strictEq _ 0); [apply Htop |]; reflexivity.
Qed.

(** X10: what a scroll event does to the bar at rest.  If the offset did
    not change, the visibility stays; otherwise the bar is shown exactly
    when the new offset is 0 or lies above the previous one, and hidden
    when the window moved down to an offset other than 0. *)
Theorem navbar_scroll_rule
    (fuel : nat) (y0 : Q) (evs : list NavBar.event) (y : Q) :
  exists c c',
    NavBar.session (S (S fuel)) y0 evs = Some c
    /\ NavBar.session (S (S fuel)) y0 (evs ++ [NavBar.Scroll y])%list = Some c'
    /\ NavBar.currentScrollY (fst c') = y
    /\ NavBar.isNavVisible (fst c')
       = if NavBar.strictEq (NavBar.currentScrollY (fst c)) y
         then NavBar.isNavVisible (fst c)
         else NavBar.strictEq y 0 || NavBar.lt y (NavBar.currentScrollY (fst c)).
Proof.
  destruct (session_atRest fuel y0 evs) as [[s d] [E R]].
  eexists (s, d), _; split; [exact E |].
  rewrite session_snoc, E.
  split; [apply dispatch_scroll, R |].
  cbn [fst NavBar.currentScrollY NavBar.isNavVisible].
  split; [reflexivity |].
  destruct (NavBar.strictEq (NavBar.currentScrollY s) y); reflexivity.
Qed.

(** X11: the audio button is a toggle.  After any sequence of events the
    audio element plays exactly when the button was clicked an odd number
    of times, and the two cells [isAudioPlaying] and [isIndicatorActive]
    say the same; scroll events change none of this. *)
Theorem navbar_audio_parity (fuel : nat) (y0 : Q) (evs : list NavBar.event) :
  exists c,
    NavBar.session (S (S fuel)) y0 evs = Some c
    /\ NavBar.isAudioPlaying (fst c) = Nat.odd (NavBar.audioClicks evs)
    /\ NavBar.isIndicatorActive (fst c) = Nat.odd (NavBar.audioClicks evs)
    /\ NavBar.audioPlaying (snd c) = Nat.odd (NavBar.audioClicks evs).
Proof.
  destruct (mount_atRest fuel y0) as [c0 [E0 R0]].
  destruct (run_audio fuel evs c0 R0) as [c [E A]].
  destruct (run_atRest fuel evs c0 R0) as [c' [E' R]].
  rewrite E in E'; injection E' as <-.
  exists c; split; [unfold NavBar.session; rewrite E0; exact E |].
  assert (A0 : NavBar.isAudioPlaying (fst c0) = false).
  { rewrite mount_result in E0; injection E0 as <-; reflexivity. }
  rewrite A0 in A; cbn in A.
  destruct R as [_ Hind Haud _ _ _ _].
  rewrite Hind, Haud, A; repeat split.
Qed.

(** X12: the first render decides from the offset of the window alone:
    mounted at a positive offset the bar starts hidden, animated to y
    -100, with the floating class; at offset 0 it is shown without the
    class; at a negative offset it is shown with the class. *)
Theorem navbar_mount_visibility (fuel : nat) (y0 : Q) :
  exists c,
    NavBar.mount (S (S fuel)) y0 = Some c
    /\ NavBar.isNavVisible (fst c) = negb (NavBar.gt y0 0)
    /\ NavBar.floatingNav (snd c) = negb (NavBar.strictEq y0 0)
    /\ NavBar.navY (snd c) = (if NavBar.gt y0 0 then -100 else 0).
Proof.
  eexists; split; [apply mount_result |].
  cbn [fst snd NavBar.isNavVisible NavBar.floatingNav NavBar.navY].
  repeat split.
  destruct (NavBar.gt y0 0); reflexivity.
Qed.

(** ** The hover effect around the mini video *)

Section VideoPreviewFacts.

Import VideoPreview.

Variable ops : numberOps.

Lemma dispatch_hover_invariant e c :
  (fst c = false -> snd c = restPose ops) ->
  (snd c = restPose ops \/ (fst c = true /\ tilted ops (snd c))) ->
  let c' := dispatch ops e c in
  (fst c' = false -> snd c' = restPose ops)
  /\ (snd c' = restPose ops \/ (fst c' = true /\ tilted ops (snd c'))).
Proof.
  destruct c as [h d]; cbn [fst snd]; intros Hrest Hshape.
  destruct e as [m | |]; cbn [dispatch fst snd].
  - unfold handleMouseMove; destruct h; cbn [fst snd].
    + split; [discriminate |].
      right; split; [reflexivity |].
      unfold tilted; cbn; repeat split.
    + split; [exact Hrest | left; apply Hrest; reflexivity].
  - unfold setIsHovering; cbn [fst snd]; destruct h; cbn.
    + split; [discriminate | exact Hshape].
    + split; [discriminate | left; apply Hrest; reflexivity].
  - unfold setIsHovering; cbn [fst snd]; destruct h; cbn.
    + split; [reflexivity | left; reflexivity].
    + split; [exact Hrest | left; apply Hrest; reflexivity].
Qed.

End VideoPreviewFacts.

(** X13: the hover effect never leaves the preview displaced.  After
    mounting and any sequence of mouse events, whenever the pointer is not
    over the section both tweens aim at the rest pose (all zero); and the
    only other targets ever asked for are those of a move over the hovered
    section, where the content goes opposite to the section and the
    rotations are half the offsets. *)
Theorem preview_rests_outside_hover
    (ops : VideoPreview.numberOps) (evs : list (VideoPreview.event ops)) :
  let c := VideoPreview.run ops evs (VideoPreview.mount ops) in
  (fst c = false -> snd c = VideoPreview.restPose ops)
  /\ (snd c = VideoPreview.restPose ops
      \/ (fst c = true /\ VideoPreview.tilted ops (snd c))).
Proof.
  cbn zeta.
  assert (Hgen : forall c,
    (fst c = false -> snd c = VideoPreview.restPose ops) ->
    (snd c = VideoPreview.restPose ops
     \/ (fst c = true /\ VideoPreview.tilted ops (snd c))) ->
    (fst (VideoPreview.run ops evs c) = false ->
       snd (VideoPreview.run ops evs c) = VideoPreview.restPose ops)
    /\ (snd (VideoPreview.run ops evs c) = VideoPreview.restPose ops
        \/ (fst (VideoPreview.run ops evs c) = true
            /\ VideoPreview.tilted ops (snd (VideoPreview.run ops evs c))))).
  { induction evs as [| e evs' IH]; intros c H1 H2; cbn [VideoPreview.run].
    - split; assumption.
    - destruct (dispatch_hover_invariant ops e c H1 H2) as [H1' H2'].
      apply IH; assumption. }
  apply Hgen.
  - intros _; reflexivity.
  - left; reflexivity.
Qed.

(** ** The contact form *)

Section ContactFacts.

Import Contact.

Lemma objGet_objSet_same k v o : objGet k (objSet k v o) = Some v.
Proof.
  induction o as [| [k' v'] o IH]; cbn.
  - rewrite String.eqb_refl; reflexivity.
  - destruct (String.eqb k' k) eqn:E; cbn; rewrite E; [reflexivity | exact IH].
Qed.

Lemma objGet_objSet_other k k0 v o :
  k0 <> k -> objGet k0 (objSet k v o) = objGet k0 o.
Proof.
  intro Hne; induction o as [| [k' v'] o IH]; cbn.
  - destruct (String.eqb_spec k k0); [congruence | reflexivity].
  - destruct (String.eqb_spec k' k) as [-> | Hk]; cbn.
    + destruct (String.eqb_spec k k0); [congruence | reflexivity].
    + destruct (String.eqb k' k0); [reflexivity | exact IH].
Qed.

Lemma objKeys_objSet_present k v o :
  In k (objKeys o) -> objKeys (objSet k v o) = objKeys o.
Proof.
  unfold objKeys.
  induction o as [| [k' v'] o IH]; cbn [objSet map fst In]; [contradiction |].
  intros [-> | Hin].
  - rewrite String.eqb_refl; reflexivity.
  - destruct (String.eqb k' k); cbn [map fst];
      [reflexivity | rewrite IH by exact Hin; reflexivity].
Qed.

(** Typing changes the form and nothing else. *)
Lemma run_typing evs : forall s,
  forallb isInputChange evs = true ->
  isSubmitting (run evs s) = isSubmitting s
  /\ submitStatus (run evs s) = submitStatus s
  /\ pending (run evs s) = pending s.
Proof.
  induction evs as [| e evs IH]; intros s Hall; cbn [run].
  - repeat split.
  - cbn [forallb] in Hall; apply andb_true_iff in Hall as [He Hall].
    destruct e; try discriminate He.
    destruct (IH (dispatch (InputChange name value) s) Hall) as [H1 [H2 H3]].
    rewrite H1, H2, H3; repeat split.
Qed.

Lemma run_app_contact evs1 evs2 s :
  run (evs1 ++ evs2)%list s = run evs2 (run evs1 s).
Proof.
  revert s; induction evs1 as [| e evs1 IH]; intro s; cbn; [reflexivity | apply IH].
Qed.

End ContactFacts.

(** X14: [handleInputChange] writes exactly the property named by the
    input: that property then holds the value, every other property reads
    as before, and the keys of the object are unchanged when the name is one
    of them, as the names of the four inputs are; the submission cells
    are untouched. *)
Theorem input_change_writes_one_field
    (name value : string) (s : Contact.ContactState) :
  let s' := Contact.handleInputChange name value s in
  Contact.objGet name (Contact.formData s') = Some value
  /\ (forall other, other <> name ->
        Contact.objGet other (Contact.formData s')
        = Contact.objGet other (Contact.formData s))
  /\ (In name (Contact.objKeys (Contact.formData s)) ->
        Contact.objKeys (Contact.formData s')
        = Contact.objKeys (Contact.formData s))
  /\ Contact.isSubmitting s' = Contact.isSubmitting s
  /\ Contact.submitStatus s' = Contact.submitStatus s.
Proof.
  cbn zeta; cbn [Contact.handleInputChange Contact.formData
                 Contact.isSubmitting Contact.submitStatus].
  split; [apply objGet_objSet_same |].
  split; [intros other Hne; apply objGet_objSet_other, Hne |].
  split; [apply objKeys_objSet_present |].
  split; reflexivity.
Qed.

(** X15: in every state the form reaches from its first render, the
    error banner is not shown (the awaited promise cannot reject), the
    success banner is never shown while the button reads "Sending...", and
    while [isSubmitting] is true a timer is still waiting. *)
Theorem submission_lifecycle (evs : list Contact.event) :
  let s := Contact.run evs Contact.initialState in
  Contact.errorBanner (Contact.render s) = false
  /\ (Contact.successBanner (Contact.render s) = true ->
      Contact.buttonTitle (Contact.render s) = "Send Message")
  /\ (Contact.isSubmitting s = true -> (1 <= Contact.pending s)%nat).
Proof.
  cbn zeta.
  assert (Hgen : forall s,
    Contact.submitStatus s <> Contact.StatusError ->
    (Contact.submitStatus s = Contact.StatusSuccess -> Contact.isSubmitting s = false) ->
    (Contact.isSubmitting s = true -> (1 <= Contact.pending s)%nat) ->
    Contact.submitStatus (Contact.run evs s) <> Contact.StatusError
    /\ (Contact.submitStatus (Contact.run evs s) = Contact.StatusSuccess ->
        Contact.isSubmitting (Contact.run evs s) = false)
    /\ (Contact.isSubmitting (Contact.run evs s) = true ->
        (1 <= Contact.pending (Contact.run evs s))%nat)).
  { induction evs as [| e evs' IH]; intros s H1 H2 H3; cbn [Contact.run].
    - repeat split; assumption.
    - destruct e as [name value | |]; apply IH; cbn.
      + exact H1.
      + exact H2.
      + exact H3.
      + discriminate.
      + discriminate.
      + intros _; apply Nat.lt_0_succ.
      + destruct (Contact.pending s); [exact H1 | cbn; discriminate].
      + destruct (Contact.pending s); [exact H2 | cbn; reflexivity].
      + destruct (Contact.pending s) eqn:Ep; [rewrite Ep; exact H3 | cbn; discriminate]. }
  destruct (Hgen Contact.initialState) as [H1 [H2 H3]]; cbn;
    try discriminate.
  set (s := Contact.run evs Contact.initialState) in *.
  split; [destruct (Contact.submitStatus s); congruence |].
  split; [| exact H3].
  intro Hsucc.
  destruct (Contact.submitStatus s); try discriminate Hsucc.
  rewrite H2; reflexivity.
Qed.

(** X16: one submission, start to end.  Whatever is typed before the
    submission and whatever is typed while it waits, the button reads
    "Sending..." during the wait, and when the timer fires the form is the
    empty form again, with the success banner and the button back to
    "Send Message". *)
Theorem completed_submission_clears_form
    (typing during : list Contact.event) :
  forallb Contact.isInputChange typing = true ->
  forallb Contact.isInputChange during = true ->
  Contact.buttonTitle
    (Contact.render
       (Contact.run (typing ++ Contact.Submit :: during)%list Contact.initialState))
  = "Sending..."
  /\ Contact.run (typing ++ Contact.Submit :: during ++ [Contact.TimerFired])%list
       Contact.initialState
     = {| Contact.formData := Contact.emptyForm;
          Contact.isSubmitting := false;
          Contact.submitStatus := Contact.StatusSuccess;
          Contact.pending := O |}.
Proof.
  intros Htyping Hduring.
  destruct (run_typing typing Contact.initialState Htyping) as [T1 [T2 T3]].
  set (s1 := Contact.run typing Contact.initialState) in *.
  destruct (run_typing during (Contact.handleSubmit_start s1) Hduring)
    as [D1 [D2 D3]].
  split.
  - rewrite run_app_contact; cbn [Contact.run Contact.dispatch].
    fold s1; cbn [Contact.render Contact.buttonTitle].
    rewrite D1; reflexivity.
  - rewrite run_app_contact; cbn [Contact.run Contact.dispatch]; fold s1.
    rewrite run_app_contact; cbn [Contact.run Contact.dispatch].
    rewrite D3; cbn [Contact.handleSubmit_start Contact.pending].
    unfold Contact.handleSubmit_resume, Contact.timerPromise;
      cbn [Contact.formData Contact.submitStatus Contact.pending].
    rewrite D3; cbn [Contact.handleSubmit_start Contact.pending Nat.pred].
    rewrite T3; reflexivity.
Qed.

Lemma completed_submission_clears_form_witness :
  let typing := [Contact.InputChange "name" "Ada";
                 Contact.InputChange "email" "ada@example.org"] in
  let during := [Contact.InputChange "message" "hello"] in
  Contact.buttonTitle
    (Contact.render
       (Contact.run (typing ++ Contact.Submit :: during)%list Contact.initialState))
  = "Sending..."
  /\ Contact.run (typing ++ Contact.Submit :: during ++ [Contact.TimerFired])%list
       Contact.initialState
     = {| Contact.formData := Contact.emptyForm;
          Contact.isSubmitting := false;
          Contact.submitStatus := Contact.StatusSuccess;
          Contact.pending := O |}.
Proof.
  apply (completed_submission_clears_form
           [Contact.InputChange "name" "Ada";
            Contact.InputChange "email" "ada@example.org"]
           [Contact.InputChange "message" "hello"]); reflexivity.
Defined.
